(** * Kanji/kana frequency counter: a shallow embedding of [main.go]

    The development follows the Go program function by function:
    [getMostCommonCharactersList] (the ranking), [routine] (the depth-bounded
    crawl with the per-character counting loop and the link filter),
    [newKanjiKanaScraper] (option handling, root URL fallback, the derived
    counts) and the two functional options.

    What the program takes from outside its own source is kept abstract and
    bundled in type classes: the [kana] package (three predicates), the
    network, the decoding of a page into characters and into HTML tokens,
    and the order in which the Go runtime enumerates a map in a [range]
    loop.  The messages are those of [main.go]; the other variant of the
    file words them differently and is otherwise the same on everything
    modelled here. *)

From Stdlib Require Import ZArith List Sorted Permutation Ascii.
From stdpp Require Import gmap strings list fin_maps sorting pretty.

Local Open Scope Z_scope.

(** ** Go's [int] *)

Module GoInt.

(** [int] is a 64-bit two's complement integer on the platforms the
    program is built for; arithmetic wraps around silently. *)
Definition width : Z := 64.
Definition maxInt : Z := 2 ^ (width - 1) - 1.
Definition minInt : Z := - 2 ^ (width - 1).

Definition wrap (z : Z) : Z :=
  (z + 2 ^ (width - 1)) mod 2 ^ width - 2 ^ (width - 1).

Definition add (a b : Z) : Z := wrap (a + b).

(** [len(m)] of a map, as an [int]. *)
Definition len {A} (m : gmap string A) : Z := Z.of_nat (size m).

End GoInt.

(** ** The functions of package [strings] the program calls *)

Module GoStrings.

(** [strings.HasPrefix(s, prefix)]:
    [len(s) >= len(prefix) && s[:len(prefix)] == prefix]. *)
Definition HasPrefix (s prefix : string) : bool :=
  (String.length prefix <=? String.length s)%nat
  && String.eqb (String.substring 0 (String.length prefix) s) prefix.

(** [strings.HasSuffix(s, suffix)]:
    [len(s) >= len(suffix) && s[len(s)-len(suffix):] == suffix]. *)
Definition HasSuffix (s suffix : string) : bool :=
  (String.length suffix <=? String.length s)%nat
  && String.eqb
       (String.substring (String.length s - String.length suffix)
                         (String.length suffix) s)
       suffix.

(** [strings.Count(s, substr)] for a non-empty [substr]: the number of
    non-overlapping instances, found left to right.  [skip] is the number
    of bytes still covered by the instance found last. *)
Fixpoint count_from (skip : nat) (substr s : string) : Z :=
  match s with
  | EmptyString => 0
  | String _ s' =>
      match skip with
      | S k => count_from k substr s'
      | O =>
          if String.prefix substr s
          then 1 + count_from (String.length substr - 1) substr s'
          else count_from 0 substr s'
      end
  end.

Definition Count (s substr : string) : Z := count_from 0 substr s.

(** The number of positions of [s] at which [substr] begins. *)
Fixpoint occurrences (substr s : string) : Z :=
  match s with
  | EmptyString => 0
  | String _ s' =>
      (if String.prefix substr s then 1 else 0) + occurrences substr s'
  end.

End GoStrings.

(** ** Constants *)

Definition defaultURL : string := "https://www.yomiuri.co.jp".
Definition defaultSearchDepth : Z := 1.
Definition maxSearchDepth : Z := 10.

(** ** The frequency counter *)

Record kanjiKanaFrequencyCounter := FrequencyCounter {
  allCharacteresCount : Z;
  uniqueCount : Z;
  kanjiUniqueCount : Z;
  kanaUniqueCount : Z;
  hiraganaUniqueCount : Z;
  katakanaUniqueCount : Z;
  kanjis : gmap string Z;
  hiraganas : gmap string Z;
  katakanas : gmap string Z
}.

(** The value [&kanjiKanaFrequencyCounter{kanjis: make(..), ..}] built by the
    constructor: every integer field is zero, every map is empty. *)
Definition emptyCounter : kanjiKanaFrequencyCounter :=
  FrequencyCounter 0 0 0 0 0 0 ∅ ∅ ∅.

Definition set_allCharacteresCount (v : Z) (fc : kanjiKanaFrequencyCounter) :=
  FrequencyCounter v (uniqueCount fc) (kanjiUniqueCount fc)
    (kanaUniqueCount fc) (hiraganaUniqueCount fc) (katakanaUniqueCount fc)
    (kanjis fc) (hiraganas fc) (katakanas fc).

Definition set_uniqueCount (v : Z) (fc : kanjiKanaFrequencyCounter) :=
  FrequencyCounter (allCharacteresCount fc) v (kanjiUniqueCount fc)
    (kanaUniqueCount fc) (hiraganaUniqueCount fc) (katakanaUniqueCount fc)
    (kanjis fc) (hiraganas fc) (katakanas fc).

Definition set_kanjiUniqueCount (v : Z) (fc : kanjiKanaFrequencyCounter) :=
  FrequencyCounter (allCharacteresCount fc) (uniqueCount fc) v
    (kanaUniqueCount fc) (hiraganaUniqueCount fc) (katakanaUniqueCount fc)
    (kanjis fc) (hiraganas fc) (katakanas fc).

Definition set_kanaUniqueCount (v : Z) (fc : kanjiKanaFrequencyCounter) :=
  FrequencyCounter (allCharacteresCount fc) (uniqueCount fc)
    (kanjiUniqueCount fc) v (hiraganaUniqueCount fc) (katakanaUniqueCount fc)
    (kanjis fc) (hiraganas fc) (katakanas fc).

Definition set_hiraganaUniqueCount (v : Z) (fc : kanjiKanaFrequencyCounter) :=
  FrequencyCounter (allCharacteresCount fc) (uniqueCount fc)
    (kanjiUniqueCount fc) (kanaUniqueCount fc) v (katakanaUniqueCount fc)
    (kanjis fc) (hiraganas fc) (katakanas fc).

Definition set_katakanaUniqueCount (v : Z) (fc : kanjiKanaFrequencyCounter) :=
  FrequencyCounter (allCharacteresCount fc) (uniqueCount fc)
    (kanjiUniqueCount fc) (kanaUniqueCount fc) (hiraganaUniqueCount fc) v
    (kanjis fc) (hiraganas fc) (katakanas fc).

Definition set_kanjis (m : gmap string Z) (fc : kanjiKanaFrequencyCounter) :=
  FrequencyCounter (allCharacteresCount fc) (uniqueCount fc)
    (kanjiUniqueCount fc) (kanaUniqueCount fc) (hiraganaUniqueCount fc)
    (katakanaUniqueCount fc) m (hiraganas fc) (katakanas fc).

Definition set_hiraganas (m : gmap string Z) (fc : kanjiKanaFrequencyCounter) :=
  FrequencyCounter (allCharacteresCount fc) (uniqueCount fc)
    (kanjiUniqueCount fc) (kanaUniqueCount fc) (hiraganaUniqueCount fc)
    (katakanaUniqueCount fc) (kanjis fc) m (katakanas fc).

Definition set_katakanas (m : gmap string Z) (fc : kanjiKanaFrequencyCounter) :=
  FrequencyCounter (allCharacteresCount fc) (uniqueCount fc)
    (kanjiUniqueCount fc) (kanaUniqueCount fc) (hiraganaUniqueCount fc)
    (katakanaUniqueCount fc) (kanjis fc) (hiraganas fc) m.

(** [m[k]] read from a [map[string]int]: the zero value when [k] is absent. *)
Definition at_key (m : gmap string Z) (k : string) : Z := default 0 (m !! k).

(** [m[k] += 1]. *)
Definition incr (k : string) (m : gmap string Z) : gmap string Z :=
  <[k := GoInt.add (at_key m k) 1]> m.

(** ** Package [kana] *)

Class Kana := {
  IsKanji : string → bool;
  IsKatakana : string → bool;
  IsHiragana : string → bool
}.

(** The body of the loop [for _, r := range text] of [routine], for one
    character [c := string(r)]. *)
Definition observe `{Kana} (c : string)
    (fc : kanjiKanaFrequencyCounter) : kanjiKanaFrequencyCounter :=
  if IsKanji c || IsKatakana c || IsHiragana c then
    let fc := set_allCharacteresCount (GoInt.add (allCharacteresCount fc) 1) fc in
    let fc := if IsKanji c then set_kanjis (incr c (kanjis fc)) fc else fc in
    let fc := if IsKatakana c then set_katakanas (incr c (katakanas fc)) fc else fc in
    let fc := if IsHiragana c then set_hiraganas (incr c (hiraganas fc)) fc else fc in
    fc
  else fc.

(** The number of classes whose predicate holds of [c]. *)
Definition matching_classes `{Kana} (c : string) : Z :=
  Z.b2z (IsKanji c) + Z.b2z (IsKatakana c) + Z.b2z (IsHiragana c).

(** The whole loop, over the characters of a page in document order. *)
Definition observe_all `{Kana} (cs : list string)
    (fc : kanjiKanaFrequencyCounter) : kanjiKanaFrequencyCounter :=
  foldl (λ fc c, observe c fc) fc cs.

(** ** The ranking *)

Module GoSort.
Section stable.
Context {A : Type} (less : A → A → bool).

(** One round of the insertion sort behind [sort.SliceStable]:
    [for j := i; j > a && less(data[j], data[j-1]); j-- { swap }].
    The sorted prefix is held back to front, so that its head is
    [data[j-1]]; the new element walks left past every element it is
    [less] than and stops at the first one it is not. *)
Fixpoint insert_back (x : A) (prefix_rev : list A) : list A :=
  match prefix_rev with
  | y :: r => if less x y then y :: insert_back x r else x :: prefix_rev
  | [] => [x]
  end.

(** [sort.SliceStable(data, less)].  The package promises a stable sort,
    and the result of a stable sort does not depend on the algorithm; the
    model is the insertion sort the package itself runs on short slices. *)
Definition SliceStable (data : list A) : list A :=
  reverse (foldl (λ acc x, insert_back x acc) [] data).
End stable.
End GoSort.

(** A [range] loop over a map visits every key once, in an order the
    runtime chooses afresh for each loop: [ks] is a possible order for the
    map [m]. *)
Definition range_of {A} (m : gmap string A) (ks : list string) : Prop :=
  ks ≡ₚ (map_to_list m).*1.

(** [for k := range m { charactersList[i] = k; i += 1 }], the keys coming in
    the order [ks]. *)
Definition fill_keys (ks : list string) (charactersList : list string) : list string :=
  (foldl (λ '(i, l) k, (S i, <[i := k]> l)) (0%nat, charactersList) ks).2.

(** [getMostCommonCharactersList(m)], [ks] being the order in which the
    [range] loop enumerates [m].  The comparison is
    [m[charactersList[i]] > m[charactersList[j]]]. *)
Definition getMostCommonCharactersList (m : gmap string Z) (ks : list string)
    : list string :=
  let charactersList := replicate (size m) "" in
  let charactersList := fill_keys ks charactersList in
  GoSort.SliceStable (λ a b, at_key m b <? at_key m a) charactersList.

(** ** The crawl *)

(** Package [html]: tokens as the tokenizer hands them out. *)
Inductive TokenType :=
  | ErrorToken | TextToken | StartTagToken | EndTagToken
  | SelfClosingTagToken | CommentToken | DoctypeToken.

Record Attribute := { Namespace : string; Key : string; Val : string }.
Record Token := { TokType : TokenType; Data : string; Attr : list Attribute }.

Definition isStartTag (t : TokenType) : bool :=
  match t with StartTagToken => true | _ => false end.
Definition isError (t : TokenType) : bool :=
  match t with ErrorToken => true | _ => false end.

(** What [http.Get] followed by [io.ReadAll] gives for a URL. *)
Inductive response :=
  | GetFails (err : string)
  | ReadFails (err : string)
  | Body (text : string).

Class Network := { Get : string → response }.

(** [chars text] is the sequence of [string(r)] for [r] ranging over
    [text]; [Tokens text] is the sequence of tokens the tokenizer yields
    for [text]. *)
Class Html := {
  chars : string → list string;
  Tokens : string → list Token
}.

(** The order of a [range] loop over the [links] set.  The runtime picks it
    per loop; the loops of one crawl are told apart by the URLs fetched
    before them. *)
Class MapRange := {
  range_order : list string → list string → list string;
  range_order_perm : ∀ before l, range_order before l ≡ₚ l
}.

(** Everything the program does to the outside, in order. *)
Inductive event :=
  | HttpGet (url : string)
  | Println (line : string)
  | LogPrintln (line : string).

Definition fetched (tr : list event) : list string :=
  omap (λ e, match e with HttpGet u => Some u | _ => None end) tr.

Definition printed (tr : list event) : list string :=
  omap (λ e, match e with Println l => Some l | _ => None end) tr.

Record crawl := Crawl { counter : kanjiKanaFrequencyCounter; trace : list event }.

Definition emit (e : event) (st : crawl) : crawl :=
  Crawl (counter st) (trace st ++ [e]).

(** The test on one [href] value. *)
Definition check (val : string) : bool :=
  let check := (0 <? String.length val)%nat
               && negb (GoStrings.HasPrefix val "http") in
  let check := check && negb (GoStrings.HasPrefix val "#") in
  let check := check && negb (GoStrings.HasPrefix val "..") in
  let check := check && GoStrings.HasSuffix val ".html" in
  check.

(** [for _, attr := range token.Attr { ... }]. *)
Definition scanAttrs (url : string) (attrs : list Attribute)
    (links : gset string) : gset string :=
  foldl (λ links attr,
           if String.eqb (Key attr) "href" then
             if check (Val attr) then {[ url +:+ "/" +:+ Val attr ]} ∪ links
             else links
           else links)
        links attrs.

(** The tokenizer loop; it ends at the first [ErrorToken], which is also
    what the tokenizer yields at the end of the input. *)
Fixpoint scanTokens (url : string) (toks : list Token)
    (links : gset string) : gset string :=
  match toks with
  | [] => links
  | token :: rest =>
      if isError (TokType token) then links
      else if isStartTag (TokType token) && String.eqb (Data token) "a"
      then scanTokens url rest (scanAttrs url (Attr token) links)
      else scanTokens url rest links
  end.

Section crawler.
Context `{Kana, Network, Html, MapRange}.

(** [routine] with [n = layer + 1] calls still allowed below it: [n = 0]
    is the case [layer < 0]. *)
Fixpoint routine_at (n : nat) (url : string) (st : crawl) : crawl :=
  match n with
  | O => st
  | S n' =>
      let st := emit (HttpGet url) st in
      match Get url with
      | GetFails err => emit (Println ("unable to fetching url. " +:+ err)) st
      | ReadFails err => emit (Println ("unable to read body. " +:+ err)) st
      | Body text =>
          let st := Crawl (observe_all (chars text) (counter st)) (trace st) in
          let links := scanTokens url (Tokens text) ∅ in
          foldl (λ st nextURL, routine_at n' nextURL st) st
                (range_order (fetched (trace st)) (elements links))
      end
  end.

(** [fc.routine(ctx, url, layer)]. *)
Definition routine (url : string) (layer : Z) (st : crawl) : crawl :=
  routine_at (Z.to_nat (layer + 1)) url st.
End crawler.

(** ** The constructor and its options *)

Record scraperOptions := ScraperOptions {
  searchDepth : option Z;
  loggingMode : bool
}.

(** The type [Option], a function from a pointer to [scraperOptions] to
    [error]: the options after the call, the lines the call wrote with
    [log.Println], and the error ([None] is [nil]). *)
Definition Option : Type :=
  scraperOptions → scraperOptions * list string * option string.

Definition WithSearchDepth (depth : Z) : Option := λ opts,
  if depth <? 0 then
    (opts, [], Some "search depth should be positive")
  else if maxSearchDepth <=? depth then
    (opts, [], Some "search depth exceeds default maximum depth")
  else (ScraperOptions (Some depth) (loggingMode opts), [], None).

Definition WithLogging : Option := λ opts,
  (ScraperOptions (searchDepth opts) true, ["logging mode is set"], None).

Definition validURL (url : string) : bool :=
  GoStrings.HasPrefix url "http" && (GoStrings.Count url "://www." =? 1).

(** [for _, opt := range options { err := opt(&opts); if err != nil ... }]:
    the options reached, the log so far, and the first error if there is
    one. *)
Fixpoint apply_options (options : list Option) (opts : scraperOptions)
    (tr : list event) : scraperOptions * list event * option string :=
  match options with
  | [] => (opts, tr, None)
  | opt :: rest =>
      let '(opts', lines, err) := opt opts in
      match err with
      | Some e => (opts', tr ++ (LogPrintln <$> lines), Some e)
      | None => apply_options rest opts' (tr ++ (LogPrintln <$> lines))
      end
  end.

(** [for c := range m { kanas[c] = struct{}{} }], the keys coming in the
    order [ks]. *)
Definition add_keys (ks : list string) (kanas : gset string) : gset string :=
  foldl (λ kanas c, {[c]} ∪ kanas) kanas ks.

(** The derived counts, computed at the end of [newKanjiKanaScraper] once
    the crawl has returned. *)
Definition finalize (frequencyCounter : kanjiKanaFrequencyCounter)
    : kanjiKanaFrequencyCounter :=
  let fc := frequencyCounter in
  let fc := set_uniqueCount (GoInt.add (uniqueCount fc) (GoInt.len (kanjis fc))) fc in
  let fc := set_uniqueCount (GoInt.add (uniqueCount fc) (GoInt.len (katakanas fc))) fc in
  let fc := set_uniqueCount (GoInt.add (uniqueCount fc) (GoInt.len (hiraganas fc))) fc in
  let fc := set_kanjiUniqueCount (GoInt.len (kanjis fc)) fc in
  let fc := set_katakanaUniqueCount (GoInt.len (katakanas fc)) fc in
  let fc := set_hiraganaUniqueCount (GoInt.len (hiraganas fc)) fc in
  let kanas := add_keys (map_to_list (katakanas fc)).*1 ∅ in
  let kanas := add_keys (map_to_list (hiraganas fc)).*1 kanas in
  set_kanaUniqueCount (Z.of_nat (size kanas)) fc.

(** How a call of the constructor ends: [return frequencyCounter, nil],
    [return nil, err], or the run-time panic of a nil pointer dereference. *)
Inductive outcome :=
  | Returned (frequencyCounter : kanjiKanaFrequencyCounter)
  | Failed (err : string)
  | NilDereference.

Section scraper.
Context `{Kana, Network, Html, MapRange}.

(** [newKanjiKanaScraper(rootURL, options...)]: the events of the call and
    the way it ends.  The context is handed to [routine], which never looks
    at it, and the wait on [ctx.Done()] after the crawl only delays the
    return; neither shows here. *)
Definition newKanjiKanaScraper (rootURL : string) (options : list Option)
    : list event * outcome :=
  let '(opts, tr, err) := apply_options options (ScraperOptions None false) [] in
  match err with
  | Some e => (tr, Failed e)
  | None =>
      let '(rootURL, tr) :=
        if negb (validURL rootURL) then
          (defaultURL,
           if loggingMode opts
           then tr ++ [LogPrintln ("invalid URL, setting to default URL= " +:+ defaultURL)]
           else tr)
        else (rootURL, tr) in
      let searchDepth' :=
        match searchDepth opts with
        | None => defaultSearchDepth
        | Some d => d
        end in
      let tr :=
        if loggingMode opts
        then tr ++ [LogPrintln ("search depth set to " +:+ pretty searchDepth')]
        else tr in
      let frequencyCounter := emptyCounter in
      (* frequencyCounter.routine(ctx, rootURL, *opts.searchDepth) *)
      match searchDepth opts with
      | None => (tr, NilDereference)
      | Some depth =>
          let st := routine rootURL depth (Crawl frequencyCounter tr) in
          (trace st, Returned (finalize (counter st)))
      end
  end.
End scraper.

(** ** Pages reached from a root *)

(** The child links of the page [url] whose body is [text]. *)
Definition childLinks `{Html} (url text : string) : gset string :=
  scanTokens url (Tokens text) ∅.

(** [reach k root u]: [u] is [k] links away from [root], every page on the
    way having been fetched and read. *)
Inductive reach `{Network, Html} : nat → string → string → Prop :=
  | reach_here url : reach 0 url url
  | reach_hop k url text nextURL u :
      Get url = Body text →
      nextURL ∈ childLinks url text →
      reach k nextURL u →
      reach (S k) url u.

(** The [href] values the tokenizer loop looks at: those of the start tags
    [a] that come before the first [ErrorToken], in document order. *)
Fixpoint hrefs (toks : list Token) : list string :=
  match toks with
  | [] => []
  | token :: rest =>
      if isError (TokType token) then []
      else if isStartTag (TokType token) && String.eqb (Data token) "a"
      then (Val <$> filter (λ attr, Key attr = "href") (Attr token)) ++ hrefs rest
      else hrefs rest
  end.

(** What one call of [routine] adds to the trace, and the URLs it fetches. *)
Definition events_of `{Kana, Network, Html, MapRange}
    (url : string) (layer : Z) (st : crawl) : list event :=
  drop (length (trace st)) (trace (routine url layer st)).

Definition fetches `{Kana, Network, Html, MapRange}
    (url : string) (layer : Z) (st : crawl) : list string :=
  fetched (events_of url layer st).

(** What a fetched page does to the counter, and what is printed for it. *)
Definition count_page `{Kana, Network, Html}
    (fc : kanjiKanaFrequencyCounter) (url : string) : kanjiKanaFrequencyCounter :=
  match Get url with
  | Body text => observe_all (chars text) fc
  | _ => fc
  end.

Definition report `{Network} (url : string) : list event :=
  match Get url with
  | GetFails err => [Println ("unable to fetching url. " +:+ err)]
  | ReadFails err => [Println ("unable to read body. " +:+ err)]
  | Body _ => []
  end.

(** The events of a run that fetches the URLs [us] in this order: each
    fetch, followed by the report of its failure if it fails. *)
Definition events_for `{Network} (us : list string) : list event :=
  us ≫= λ u, HttpGet u :: report u.

(** [runs step P]: from any state, [step] fetches a list of URLs, namely
    those that satisfy [P], leaves the events of those fetches in the trace
    and counts the pages that could be read, in the order of the fetches. *)
Definition runs `{Kana, Network, Html} (step : crawl → crawl)
    (P : string → Prop) : Prop :=
  ∀ st, ∃ us,
    trace (step st) = trace st ++ events_for us
    ∧ counter (step st) = foldl count_page (counter st) us
    ∧ ∀ u, u ∈ us ↔ P u.

(** The options of this program that report no error. *)
Definition accepted (opt : Option) : Prop :=
  opt = WithLogging
  ∨ ∃ depth, 0 ≤ depth < maxSearchDepth ∧ opt = WithSearchDepth depth.

(** What the constructor logs between the options and the crawl. *)
Definition logged (rootURL : string) (opts : scraperOptions) : list event :=
  (if negb (validURL rootURL) && loggingMode opts
   then [LogPrintln ("invalid URL, setting to default URL= " +:+ defaultURL)]
   else [])
  ++ (if loggingMode opts
      then [LogPrintln ("search depth set to "
                        +:+ pretty (default defaultSearchDepth (searchDepth opts)))]
      else []).

(** ** A sample site *)

Module Fixture.

(** A classifier whose two kana predicates overlap on the prolonged sound
    mark. *)
Definition overlapKana : Kana := {|
  IsKanji c := bool_decide (c ∈ ["漢"; "字"]);
  IsKatakana c := bool_decide (c ∈ ["カ"; "ナ"; "ー"]);
  IsHiragana c := bool_decide (c ∈ ["か"; "な"; "ー"])
|}.


(** Splitting well-formed UTF-8 into characters: the first byte of a
    character tells how many bytes it has. *)
Definition utf8_width (b : ascii) : nat :=
  let n := nat_of_ascii b in
  if (n <? 128)%nat then 1%nat
  else if (n <? 224)%nat then 2%nat
  else if (n <? 240)%nat then 3%nat else 4%nat.

Fixpoint utf8_chars (pending : nat) (cur : string) (s : string) : list string :=
  match s with
  | EmptyString => match cur with EmptyString => [] | _ => [cur] end
  | String b s' =>
      match pending with
      | O =>
          match cur with EmptyString => [] | _ => [cur] end
          ++ utf8_chars (utf8_width b - 1) (String b EmptyString) s'
      | S p => utf8_chars p (cur +:+ String b EmptyString) s'
      end
  end.

Definition a_href (val : string) : Token :=
  {| TokType := StartTagToken; Data := "a";
     Attr := [ {| Namespace := ""; Key := "href"; Val := val |} ] |}.
Definition text_token (t : string) : Token :=
  {| TokType := TextToken; Data := t; Attr := [] |}.
Definition end_tag (name : string) : Token :=
  {| TokType := EndTagToken; Data := name; Attr := [] |}.
Definition eof : Token := {| TokType := ErrorToken; Data := ""; Attr := [] |}.

Definition rootURL : string := "http://www.example.jp".

Definition rootText : string :=
  "<a href=a.html>漢字ー漢</a><a href=b.html><a href=a.html/c.html><a href=a.html><a href=http://www.example.jp/d.html><a href=#top><a href=../e.html><a href=f.htm>".
Definition textA : string := "かな<a href=c.html>".
Definition textC : string := "カナカ".

Definition sampleHtml : Html := {|
  chars := utf8_chars 0 "";
  Tokens text :=
    if String.eqb text rootText then
      [ a_href "a.html"; text_token "漢字ー漢"; end_tag "a";
        a_href "b.html"; a_href "a.html/c.html"; a_href "a.html";
        a_href "http://www.example.jp/d.html"; a_href "#top";
        a_href "../e.html"; a_href "f.htm"; eof ]
    else if String.eqb text textA then
      [ text_token "かな"; a_href "c.html"; eof ]
    else if String.eqb text textC then [ text_token textC; eof ]
    else [ eof ]
|}.

Definition sampleNetwork : Network := {|
  Get url :=
    if String.eqb url rootURL then Body rootText
    else if String.eqb url (rootURL +:+ "/a.html") then Body textA
    else if String.eqb url (rootURL +:+ "/b.html")
    then GetFails "connection refused"
    else if String.eqb url (rootURL +:+ "/a.html/c.html") then Body textC
    else if String.eqb url (rootURL +:+ "/d.html")
    then ReadFails "unexpected EOF"
    else GetFails "no such host"
|}.

(** The [range] loops run in the order [elements] lists a set. *)
Definition inOrder : MapRange := {|
  range_order _ l := l;
  range_order_perm _ l := reflexivity l
|}.

(** The [range] loops run in the opposite order. *)
Definition backwards : MapRange := {|
  range_order _ l := reverse l;
  range_order_perm _ l := reverse_Permutation l
|}.

Definition scrape (url : string) (options : list Option) : list event * outcome :=
  @newKanjiKanaScraper overlapKana sampleNetwork sampleHtml inOrder url options.

Definition crawlFrom (url : string) (layer : Z) : crawl :=
  @routine overlapKana sampleNetwork sampleHtml inOrder url layer
    (Crawl emptyCounter []).

(** Two characters seen once each, and two orders in which a [range]
    loop may enumerate them. *)
Definition tied : gmap string Z := {[ "あ" := 1; "い" := 1 ]}.

(** Three characters, no two of them seen equally often. *)
Definition ranked : gmap string Z := {[ "漢" := 3; "字" := 1; "本" := 2 ]}.

End Fixture.

(** ** The report: [printCharactersRanking] and [main] *)

(** How a piece of the program ends: it runs to its end, or a run-time
    panic stops the program. *)
Inductive ending := Exited | Panicked.

(** [int(math.Sqrt(float64(n)))], left to the floating point unit. *)
Class Float := { sqrt_int : Z → Z }.

(** The order of the [range] loop in each of the calls of
    [getMostCommonCharactersList] that [main] makes; [loop] tells the calls
    apart. *)
Class KeyRange := {
  keys_order : nat → gmap string Z → list string;
  keys_order_range : ∀ loop m, range_of m (keys_order loop m)
}.

Definition tab : string := String (ascii_of_nat 9) EmptyString.
Definition newline : string := String (ascii_of_nat 10) EmptyString.

Fixpoint spaces (n : nat) : string :=
  match n with
  | O => EmptyString
  | S n' => String " " (spaces n')
  end.

(** The verb [%4d]: decimal, padded with spaces on the left to four
    characters. *)
Definition fmt_4d (z : Z) : string :=
  let digits := pretty z in
  spaces (4 - String.length digits) +:+ digits.

(** [fmt.Printf("%4d. %v (%v)\t", i+1, rankingList[i], m[rankingList[i]])]. *)
Definition rankingEntry (i : Z) (c : string) (count : Z) : string :=
  fmt_4d (i + 1) +:+ ". " +:+ c +:+ " (" +:+ pretty count +:+ ")" +:+ tab.

(** The loop of [printCharactersRanking] over the indices still to
    come: what it writes to standard output, one string per call of
    [fmt.Println] or [fmt.Printf], and how it ends.  [i%cols] panics when
    [cols] is 0 and [rankingList[i]] when [i] is out of range. *)
Fixpoint rankingLoop (cols : Z) (m : gmap string Z) (rankingList : list string)
    (indices : list Z) : list string * ending :=
  match indices with
  | [] => ([], Exited)
  | i :: rest =>
      if (0 <? i) && (cols =? 0) then ([], Panicked)
      else
        let break := if (0 <? i) && (Z.rem i cols =? 0) then [newline] else [] in
        match rankingList !! Z.to_nat i with
        | None => (break, Panicked)
        | Some c =>
            let '(written, e) := rankingLoop cols m rankingList rest in
            (break ++ rankingEntry i c (at_key m c) :: written, e)
        end
  end.

(** [printCharactersRanking(m, rankingList, rankingSize)]. *)
Definition printCharactersRanking `{Float} (m : gmap string Z)
    (rankingList : list string) (rankingSize : Z) : list string * ending :=
  let minRankingSize := rankingSize in
  let minRankingSize :=
    if Z.of_nat (length rankingList) <? minRankingSize
    then Z.of_nat (length rankingList) else minRankingSize in
  let cols := Z.max 5 (sqrt_int minRankingSize) in
  let '(written, e) := rankingLoop cols m rankingList (seqZ 0 minRankingSize) in
  match e with
  | Exited => (written ++ [newline], Exited)
  | Panicked => (written, Panicked)
  end.

(** What [main] does to the outside: the events of the crawl, what it
    writes to standard output itself and what it logs. *)
Inductive output :=
  | Crawled (e : event)
  | Stdout (text : string)
  | Logged (line : string).

(** Running [next] after [first], unless [first] ended in a panic. *)
Definition andThen (first next : list output * ending) : list output * ending :=
  match first.2 with
  | Exited => (first.1 ++ next.1, next.2)
  | Panicked => first
  end.

Definition println (line : string) : list output * ending :=
  ([Stdout (line +:+ newline)], Exited).

Section report.
Context `{Kana, Network, Html, MapRange, Float, KeyRange}.

(** The ranking printed through [printCharactersRanking], as part of
    [main]'s output. *)
Definition printing (m : gmap string Z) (rankingList : list string)
    (rankingSize : Z) : list output * ending :=
  let '(written, e) := printCharactersRanking m rankingList rankingSize in
  (Stdout <$> written, e).

(** [main] from the parsed flags on; [elapsed] is what [time.Since] gives
    at the end. *)
Definition main (url : string) (searchDepth rankingSize : Z) (elapsed : string)
    : list output * ending :=
  let '(tr, result) :=
    newKanjiKanaScraper url [WithSearchDepth searchDepth; WithLogging] in
  match result with
  | NilDereference => (Crawled <$> tr, Panicked)
  | Failed err =>
      (* log.Println(err), then res.kanjis with res == nil *)
      ((Crawled <$> tr) ++ [Logged err], Panicked)
  | Returned res =>
      let mostCommomKanjis :=
        getMostCommonCharactersList (kanjis res) (keys_order 0 (kanjis res)) in
      let mostCommomKatakana :=
        getMostCommonCharactersList (katakanas res)
          (keys_order 1 (katakanas res)) in
      let mostCommomHiragana :=
        getMostCommonCharactersList (hiraganas res)
          (keys_order 2 (hiraganas res)) in
      let kanjiRankingSize := Z.min (kanjiUniqueCount res) rankingSize in
      let katakanaRankingSize := Z.min (katakanaUniqueCount res) rankingSize in
      let hiraganaRankingSize := Z.min (hiraganaUniqueCount res) rankingSize in
      andThen (Crawled <$> tr, Exited)
      (andThen (println ("All Japanese characters found: "
                         +:+ pretty (allCharacteresCount res)))
      (andThen (println ("Kanji unique count: "
                         +:+ pretty (kanjiUniqueCount res)))
      (andThen (if 0 <? kanjiUniqueCount res then
                  andThen (println (pretty kanjiRankingSize
                                    +:+ " most common Kanji characters:"))
                          (printing (kanjis res) mostCommomKanjis
                                    kanjiRankingSize)
                else ([], Exited))
      (andThen (println ("Kana unique count: "
                         +:+ pretty (kanaUniqueCount res)))
      (andThen (println ("Katakana unique count: "
                         +:+ pretty (katakanaUniqueCount res)))
      (andThen (println ("Hiragana unique count: "
                         +:+ pretty (hiraganaUniqueCount res)))
      (andThen (if 0 <? katakanaUniqueCount res then
                  andThen (println (pretty katakanaRankingSize
                                    +:+ " most common Katakana characters:"))
                          (printing (katakanas res) mostCommomKatakana
                                    katakanaRankingSize)
                else ([], Exited))
      (andThen (if 0 <? hiraganaUniqueCount res then
                  andThen (println (pretty hiraganaRankingSize
                                    +:+ " most common Hiragana characters:"))
                          (printing (hiraganas res) mostCommomHiragana
                                    hiraganaRankingSize)
                else ([], Exited))
               ([Logged ("total time: " +:+ elapsed)], Exited)))))))))
  end.
End report.

(** ** The other variant of [printCharactersRanking] *)

(** Package [kana] again: the two functions only this variant calls. *)
Class Romaji := {
  IsKana : string → bool;
  KanaToRomaji : string → string
}.

(** [fmt.Printf("%4d. %v %v (%v)\n", i+1, c, romaji, count)] for a kana
    and [fmt.Printf("%4d. %v (%v)\n", i+1, c, count)] for anything else. *)
Definition romajiEntry `{Romaji} (i : Z) (c : string) (count : Z) : string :=
  if IsKana c then
    let romaji := KanaToRomaji c in
    fmt_4d (i + 1) +:+ ". " +:+ c +:+ " " +:+ romaji
      +:+ " (" +:+ pretty count +:+ ")" +:+ newline
  else
    fmt_4d (i + 1) +:+ ". " +:+ c +:+ " (" +:+ pretty count +:+ ")" +:+ newline.

(** The loop of this variant over the indices still to come. *)
Fixpoint romajiLoop `{Romaji} (m : gmap string Z) (rankingList : list string)
    (indices : list Z) : list string * ending :=
  match indices with
  | [] => ([], Exited)
  | i :: rest =>
      match rankingList !! Z.to_nat i with
      | None => ([], Panicked)
      | Some c =>
          let '(written, e) := romajiLoop m rankingList rest in
          (romajiEntry i c (at_key m c) :: written, e)
      end
  end.

(** [printCharactersRanking(m, rankingList, rankingSize)] as the variant
    that shows the romaji has it. *)
Definition printCharactersRankingRomaji `{Romaji} (m : gmap string Z)
    (rankingList : list string) (rankingSize : Z) : list string * ending :=
  let minRankingSize := rankingSize in
  let minRankingSize :=
    if Z.of_nat (length rankingList) <? minRankingSize
    then Z.of_nat (length rankingList) else minRankingSize in
  let '(written, e) := romajiLoop m rankingList (seqZ 0 minRankingSize) in
  match e with
  | Exited => (written ++ [newline], Exited)
  | Panicked => (written, Panicked)
  end.

(** A piece of [main] that writes lines to standard output and runs to
    its end. *)
Definition prints (p : list output * ending) (texts : list string) : Prop :=
  p = (Stdout <$> texts, Exited).

(** ** Notions used to state what the counter and the crawl compute *)

(** How often [c] occurs in [cs]. *)
Definition occurs (c : string) (cs : list string) : Z :=
  Z.of_nat (length (filter (λ x, x = c) cs)).

(** The condition under which [routine] counts a character at all. *)
Definition classified `{Kana} (c : string) : bool :=
  IsKanji c || IsKatakana c || IsHiragana c.

(** One of the three maps along the counting loop: the entries of the
    characters [p] holds of go up by one each time. *)
Definition tally (p : string → bool) (cs : list string)
    (m : gmap string Z) : gmap string Z :=
  foldl (λ m c, if p c then incr c m else m) m cs.

(** Every key of a map of the counter is of the class of the map. *)
Definition keys_in_class `{Kana} (fc : kanjiKanaFrequencyCounter) : Prop :=
  (∀ k, is_Some (kanjis fc !! k) → IsKanji k = true)
  ∧ (∀ k, is_Some (katakanas fc !! k) → IsKatakana k = true)
  ∧ (∀ k, is_Some (hiraganas fc !! k) → IsHiragana k = true).

(** The characters of the page at [u], none if it cannot be fetched and
    read. *)
Definition page_chars `{Network, Html} (u : string) : list string :=
  match Get u with
  | Body text => chars text
  | _ => []
  end.

(** The fetches of a crawl with [n = layer + 1], in the order in which
    [elements] lists the links of a page: a page, then for each of its
    links the fetches of the crawl from that link. *)
Fixpoint visits `{Network, Html} (n : nat) (url : string) : list string :=
  match n with
  | O => []
  | S n' =>
      url :: match Get url with
             | Body text => elements (childLinks url text) ≫= visits n'
             | _ => []
             end
  end.

(** [runs_as step us]: like [runs], with the URLs fetched given as a
    list up to their order. *)
Definition runs_as `{Kana, Network, Html} (step : crawl → crawl)
    (expected : list string) : Prop :=
  ∀ st, ∃ us,
    trace (step st) = trace st ++ events_for us
    ∧ counter (step st) = foldl count_page (counter st) us
    ∧ us ≡ₚ expected.

(** ** The report on the sample site *)

Module ReportFixture.
(** The square root rounded down, and the keys of a map in the order
    [map_to_list] lists them. *)
Definition floorSqrt : Float := {| sqrt_int := Z.sqrt |}.

Definition keysInOrder : KeyRange := {|
  keys_order _ m := (map_to_list m).*1;
  keys_order_range _ m := Permutation_refl _
|}.

(** Two kana with their romaji. *)
Definition twoKana : Romaji := {|
  IsKana c := String.eqb c "か" || String.eqb c "ナ";
  KanaToRomaji c := if String.eqb c "か" then "ka" else "na"
|}.

Definition report (url : string) (searchDepth rankingSize : Z)
    : list output * ending :=
  @main Fixture.overlapKana Fixture.sampleNetwork Fixture.sampleHtml
    Fixture.inOrder floorSqrt keysInOrder url searchDepth rankingSize "1s".
End ReportFixture.

(** * Properties *)

(** ** Integers and strings *)

Module GoIntFacts.
Import GoInt.

Lemma wrap_small z : minInt ≤ z ≤ maxInt → wrap z = z.
Proof.
  unfold wrap, minInt, maxInt, width. intros Hz.
  rewrite Z.mod_small; lia.
Qed.

Lemma wrap_range z : minInt ≤ wrap z ≤ maxInt.
Proof.
  unfold wrap, minInt, maxInt, width.
  pose proof (Z.mod_pos_bound (z + 2 ^ (64 - 1)) (2 ^ 64) ltac:(lia)). lia.
Qed.

Lemma wrap_add_l a b : wrap (wrap a + b) = wrap (a + b).
Proof.
  unfold wrap, width.
  replace (((a + 2 ^ (64 - 1)) mod 2 ^ 64 - 2 ^ (64 - 1)) + b + 2 ^ (64 - 1))
    with ((a + 2 ^ (64 - 1)) mod 2 ^ 64 + b) by lia.
  rewrite Zplus_mod_idemp_l. do 2 f_equal. lia.
Qed.

Lemma add_small a b : minInt ≤ a + b ≤ maxInt → add a b = a + b.
Proof. apply wrap_small. Qed.

Lemma add_0_1 : add 0 1 = 1.
Proof. reflexivity. Qed.

Lemma add_add a b c : add (add a b) c = wrap (a + b + c).
Proof. unfold add. apply wrap_add_l. Qed.
End GoIntFacts.

Module GoStringsFacts.
Import GoStrings.

Lemma app_cons (a : ascii) (s t : string) :
  String a s +:+ t = String a (s +:+ t).
Proof. reflexivity. Qed.

Lemma app_nil (t : string) : "" +:+ t = t.
Proof. reflexivity. Qed.

Lemma length_app (s t : string) :
  String.length (s +:+ t) = (String.length s + String.length t)%nat.
Proof.
  induction s as [|a s IH]; [done|].
  rewrite app_cons. simpl. by rewrite IH.
Qed.

Lemma prefix_iff (p s : string) :
  String.prefix p s = true ↔ ∃ t, s = p +:+ t.
Proof.
  revert s. induction p as [|a p IH]; intros s.
  - split; [intros _; by exists s|]. by destruct s.
  - destruct s as [|b s]; simpl.
    + split; [done|]. by intros [t ?].
    + destruct (ascii_dec a b) as [->|Hne].
      * rewrite IH. split; intros [t Ht]; exists t;
          rewrite ?app_cons in *; congruence.
      * split; [done|]. intros [t Ht]. rewrite app_cons in Ht. congruence.
Qed.

Lemma HasPrefix_iff (s p : string) :
  HasPrefix s p = true ↔ ∃ t, s = p +:+ t.
Proof.
  unfold HasPrefix. rewrite andb_true_iff, Nat.leb_le, String.eqb_eq.
  rewrite <- String.prefix_correct, prefix_iff.
  split; [tauto|]. intros [t ->]. split; [|by exists t].
  rewrite length_app. lia.
Qed.

Lemma substring_all (s : string) : String.substring 0 (String.length s) s = s.
Proof. induction s as [|a s IH]; simpl; [done|]. by rewrite IH. Qed.

Lemma substring_app_r (t s : string) (n : nat) :
  String.substring (String.length t) n (t +:+ s) = String.substring 0 n s.
Proof. induction t as [|a t IH]; [done|]. rewrite app_cons. apply IH. Qed.

Lemma substring_split (s : string) (n : nat) :
  (n ≤ String.length s)%nat →
  s = String.substring 0 n s +:+ String.substring n (String.length s - n) s.
Proof.
  revert n. induction s as [|a s IH]; intros n Hn.
  - by destruct n.
  - destruct n as [|n]; simpl in *.
    + by rewrite app_nil, substring_all.
    + rewrite app_cons. f_equal. apply IH. lia.
Qed.

Lemma HasSuffix_iff (s suf : string) :
  HasSuffix s suf = true ↔ ∃ t, s = t +:+ suf.
Proof.
  unfold HasSuffix. rewrite andb_true_iff, Nat.leb_le, String.eqb_eq. split.
  - intros [Hlen Heq].
    exists (String.substring 0 (String.length s - String.length suf) s).
    pose proof (substring_split s (String.length s - String.length suf)
                  ltac:(lia)) as Hs.
    replace (String.length s - (String.length s - String.length suf))%nat
      with (String.length suf) in Hs by lia.
    by rewrite Heq in Hs.
  - intros [t ->]. rewrite length_app. split; [lia|].
    replace (String.length t + String.length suf - String.length suf)%nat
      with (String.length t) by lia.
    by rewrite substring_app_r, substring_all.
Qed.

Lemma length_pos_iff (s : string) :
  (0 <? String.length s)%nat = true ↔ s ≠ "".
Proof. destruct s; simpl; split; (done || lia || auto). Qed.

(** Two instances of [://www.] cannot overlap, so the instances that
    [strings.Count] finds are all the places where it occurs. *)
Lemma Count_www (s : string) : Count s "://www." = occurrences "://www." s.
Proof.
  unfold Count.
  remember (String.length s) as n eqn:Hn. revert s Hn.
  induction n as [n IH] using lt_wf_ind. intros s Hn.
  destruct s as [|a s']; [done|].
  cbn [count_from occurrences].
  destruct (String.prefix "://www." (String a s')) eqn:Hp.
  - apply prefix_iff in Hp as [rest Hrest].
    cbv [String.append] in Hrest. injection Hrest as -> ->.
    cbn. rewrite (IH (String.length rest)); [lia| |done].
    subst n. simpl. lia.
  - rewrite (IH (String.length s')); [lia| |done].
    subst n. simpl. lia.
Qed.
End GoStringsFacts.

(** ** The counting step *)

Section observe_facts.
Context `{Kana}.

Lemma lookup_incr (m : gmap string Z) (c k : string) :
  incr c m !! k
  = if bool_decide (k = c) then Some (GoInt.add (at_key m c) 1) else m !! k.
Proof.
  unfold incr. case_bool_decide as Hk.
  - subst. apply lookup_insert_eq.
  - by apply lookup_insert_ne.
Qed.

Lemma observe_kanjis c fc :
  kanjis (observe c fc) = if IsKanji c then incr c (kanjis fc) else kanjis fc.
Proof.
  unfold observe.
  destruct (IsKanji c), (IsKatakana c), (IsHiragana c); reflexivity.
Qed.

Lemma observe_katakanas c fc :
  katakanas (observe c fc)
  = if IsKatakana c then incr c (katakanas fc) else katakanas fc.
Proof.
  unfold observe.
  destruct (IsKanji c), (IsKatakana c), (IsHiragana c); reflexivity.
Qed.

Lemma observe_hiraganas c fc :
  hiraganas (observe c fc)
  = if IsHiragana c then incr c (hiraganas fc) else hiraganas fc.
Proof.
  unfold observe.
  destruct (IsKanji c), (IsKatakana c), (IsHiragana c); reflexivity.
Qed.

Lemma observe_total c fc :
  allCharacteresCount (observe c fc)
  = if IsKanji c || IsKatakana c || IsHiragana c
    then GoInt.add (allCharacteresCount fc) 1
    else allCharacteresCount fc.
Proof.
  unfold observe.
  destruct (IsKanji c), (IsKatakana c), (IsHiragana c); reflexivity.
Qed.

Lemma lookup_incr_fresh (m : gmap string Z) (c : string) :
  m !! c = None → incr c m !! c = Some 1.
Proof.
  intros Hc. rewrite lookup_incr, bool_decide_eq_true_2 by done.
  unfold at_key. by rewrite Hc.
Qed.

(** C1, as the code has it.  Observing a character [c] adds one (in Go's
    [int]) to the entry for [c] in the map of every class whose predicate
    holds of [c], leaves every other entry of the three maps as it was,
    and adds one to [allCharacteresCount] when at least one predicate
    holds, however many do; an entry that was absent is created at 1. *)
Theorem observe_increments c fc :
  (∀ k, kanjis (observe c fc) !! k
        = if IsKanji c && bool_decide (k = c)
          then Some (GoInt.add (at_key (kanjis fc) c) 1)
          else kanjis fc !! k)
  ∧ (∀ k, katakanas (observe c fc) !! k
        = if IsKatakana c && bool_decide (k = c)
          then Some (GoInt.add (at_key (katakanas fc) c) 1)
          else katakanas fc !! k)
  ∧ (∀ k, hiraganas (observe c fc) !! k
        = if IsHiragana c && bool_decide (k = c)
          then Some (GoInt.add (at_key (hiraganas fc) c) 1)
          else hiraganas fc !! k)
  ∧ allCharacteresCount (observe c fc)
    = (if IsKanji c || IsKatakana c || IsHiragana c
       then GoInt.add (allCharacteresCount fc) 1
       else allCharacteresCount fc)
  ∧ (IsKanji c = true → kanjis fc !! c = None →
     kanjis (observe c fc) !! c = Some 1)
  ∧ (IsKatakana c = true → katakanas fc !! c = None →
     katakanas (observe c fc) !! c = Some 1)
  ∧ (IsHiragana c = true → hiraganas fc !! c = None →
     hiraganas (observe c fc) !! c = Some 1).
Proof.
  rewrite observe_kanjis, observe_katakanas, observe_hiraganas, observe_total.
  repeat split.
  - intros k. destruct (IsKanji c); simpl; [apply lookup_incr|done].
  - intros k. destruct (IsKatakana c); simpl; [apply lookup_incr|done].
  - intros k. destruct (IsHiragana c); simpl; [apply lookup_incr|done].
  - intros -> ?. by apply lookup_incr_fresh.
  - intros -> ?. by apply lookup_incr_fresh.
  - intros -> ?. by apply lookup_incr_fresh.
Qed.
End observe_facts.

(** C1 as the specification words it fails: the prolonged sound mark
    matches two predicates of the sample classifier, and observing it adds
    one to the total, not two. *)
Lemma observe_overlap_counts_once :
  @matching_classes Fixture.overlapKana "ー" = 2
  ∧ allCharacteresCount (@observe Fixture.overlapKana "ー" emptyCounter)
    = allCharacteresCount emptyCounter + 1
  ∧ allCharacteresCount (@observe Fixture.overlapKana "ー" emptyCounter)
    ≠ allCharacteresCount emptyCounter
      + @matching_classes Fixture.overlapKana "ー".
Proof. repeat split. vm_compute. discriminate. Qed.

Lemma observe_increments_witness :
  (@IsKanji Fixture.overlapKana "漢" = true
   ∧ kanjis emptyCounter !! "漢" = None
   ∧ kanjis (@observe Fixture.overlapKana "漢" emptyCounter) !! "漢" = Some 1)
  ∧ (@IsKatakana Fixture.overlapKana "ー" = true
     ∧ katakanas emptyCounter !! "ー" = None
     ∧ katakanas (@observe Fixture.overlapKana "ー" emptyCounter) !! "ー" = Some 1)
  ∧ (@IsHiragana Fixture.overlapKana "ー" = true
     ∧ hiraganas emptyCounter !! "ー" = None
     ∧ hiraganas (@observe Fixture.overlapKana "ー" emptyCounter) !! "ー" = Some 1).
Proof.
  pose proof (@observe_increments Fixture.overlapKana "漢" emptyCounter)
    as (_ & _ & _ & _ & Hkanji & _ & _).
  pose proof (@observe_increments Fixture.overlapKana "ー" emptyCounter)
    as (_ & _ & _ & _ & _ & Hkata & Hhira).
  repeat split; first [apply Hkanji | apply Hkata | apply Hhira | idtac];
    reflexivity.
Defined.

(** ** The derived counts *)

Lemma add_keys_union (ks : list string) (kanas : gset string) :
  add_keys ks kanas = list_to_set ks ∪ kanas.
Proof.
  unfold add_keys. revert kanas.
  induction ks as [|k ks IH]; intros kanas; simpl.
  - by rewrite (left_id_L ∅ (∪)).
  - by rewrite IH, (assoc_L (∪)), (comm_L (∪) _ {[k]}).
Qed.

(** The set built by a [range] loop over the keys of [m] does not depend
    on the order of the loop. *)
Lemma add_keys_range {A} (m : gmap string A) (ks : list string)
    (kanas : gset string) :
  range_of m ks → add_keys ks kanas = dom m ∪ kanas.
Proof.
  unfold range_of. intros Hks. rewrite add_keys_union. f_equal.
  apply set_eq. intros k.
  rewrite elem_of_list_to_set, Hks, elem_of_dom, list_elem_of_fmap.
  split.
  - intros [[k' v] [-> Hin]]. apply elem_of_map_to_list in Hin. by exists v.
  - intros [v Hv]. exists (k, v). split; [done|]. by apply elem_of_map_to_list.
Qed.

Lemma range_of_map_to_list {A} (m : gmap string A) :
  range_of m (map_to_list m).*1.
Proof. unfold range_of. reflexivity. Qed.

Lemma add_keys_map_to_list (m : gmap string Z) (kanas : gset string) :
  add_keys (map_to_list m).*1 kanas = dom m ∪ kanas.
Proof. apply add_keys_range, range_of_map_to_list. Qed.

Lemma finalize_fields fc :
  finalize fc
  = FrequencyCounter
      (allCharacteresCount fc)
      (GoInt.wrap (uniqueCount fc + GoInt.len (kanjis fc)
                   + GoInt.len (katakanas fc) + GoInt.len (hiraganas fc)))
      (GoInt.len (kanjis fc))
      (Z.of_nat (size (dom (katakanas fc) ∪ dom (hiraganas fc))))
      (GoInt.len (hiraganas fc))
      (GoInt.len (katakanas fc))
      (kanjis fc) (hiraganas fc) (katakanas fc).
Proof.
  unfold finalize. cbn.
  rewrite !add_keys_map_to_list.
  unfold set_kanaUniqueCount; cbn. f_equal.
  - unfold GoInt.add.
    by rewrite (GoIntFacts.wrap_add_l (uniqueCount fc + _)), GoIntFacts.wrap_add_l.
  - do 2 f_equal. rewrite (right_id_L ∅ (∪)). apply (comm_L (∪)).
Qed.

(** C7, as the code has it.  Computing the derived counts a second time on
    unchanged maps gives the same [kanjiUniqueCount], [katakanaUniqueCount],
    [hiraganaUniqueCount] and [kanaUniqueCount] (the size of the union of
    the katakana and hiragana keys) and leaves the maps and the total
    alone; [uniqueCount] is added to, not assigned: each computation adds
    the three sizes to the value it finds. *)
Theorem finalize_again fc :
  let once := finalize fc in
  let twice := finalize once in
  kanjiUniqueCount twice = kanjiUniqueCount once
  ∧ katakanaUniqueCount twice = katakanaUniqueCount once
  ∧ hiraganaUniqueCount twice = hiraganaUniqueCount once
  ∧ kanaUniqueCount twice = kanaUniqueCount once
  ∧ kanaUniqueCount once
    = Z.of_nat (size (dom (hiraganas fc) ∪ dom (katakanas fc)))
  ∧ kanjis twice = kanjis fc ∧ katakanas twice = katakanas fc
  ∧ hiraganas twice = hiraganas fc
  ∧ allCharacteresCount twice = allCharacteresCount fc
  ∧ uniqueCount once
    = GoInt.wrap (uniqueCount fc + GoInt.len (kanjis fc)
                  + GoInt.len (katakanas fc) + GoInt.len (hiraganas fc))
  ∧ uniqueCount twice
    = GoInt.wrap (uniqueCount once + GoInt.len (kanjis fc)
                  + GoInt.len (katakanas fc) + GoInt.len (hiraganas fc)).
Proof.
  intros once twice. subst twice once. rewrite !finalize_fields. cbn.
  repeat split. do 2 f_equal. apply (comm_L (∪)).
Qed.

(** C7 as the specification words it fails: with one kanji seen twice, the
    first computation gives [uniqueCount = 1] and the second, on the same
    maps, [uniqueCount = 2]. *)
Lemma finalize_not_idempotent :
  let fc := FrequencyCounter 2 0 0 0 0 0 {[ "漢" := 2 ]} ∅ ∅ in
  kanjis (finalize fc) = kanjis fc
  ∧ uniqueCount (finalize fc) = 1
  ∧ uniqueCount (finalize (finalize fc)) = 2
  ∧ finalize (finalize fc) ≠ finalize fc.
Proof.
  cbv zeta. split; [by vm_compute|]. split; [by vm_compute|].
  split; [by vm_compute|].
  intros Heq. apply (f_equal uniqueCount) in Heq.
  vm_compute in Heq. discriminate Heq.
Qed.

(** ** The ranking *)

Module GoSortFacts.
Section by_key.
Import GoSort.
Context {A : Type} (f : A → Z).

(** The comparison of the ranking: larger keys first. *)
Let less (a b : A) : bool := f b <? f a.
Let ascending (a b : A) : Prop := f a ≤ f b.

Local Instance ascending_trans : Transitive (flip ascending).
Proof. intros a b c. unfold flip, ascending. lia. Qed.

Lemma insert_back_perm x l : insert_back less x l ≡ₚ x :: l.
Proof.
  induction l as [|y r IH]; simpl; [done|].
  destruct (less x y); [|done].
  rewrite IH. apply perm_swap.
Qed.

Lemma insert_all_perm l acc :
  foldl (λ acc x, insert_back less x acc) acc l ≡ₚ l ++ acc.
Proof.
  revert acc. induction l as [|x l IH]; intros acc; simpl; [done|].
  rewrite IH, insert_back_perm. by rewrite Permutation_middle.
Qed.

Lemma SliceStable_perm l : SliceStable less l ≡ₚ l.
Proof.
  unfold SliceStable.
  by rewrite reverse_Permutation, insert_all_perm, app_nil_r.
Qed.

Lemma insert_back_HdRel x y r :
  HdRel ascending y r → ascending y x → HdRel ascending y (insert_back less x r).
Proof.
  intros Hr Hyx. destruct r as [|z r]; simpl; [by constructor|].
  destruct (less x z); [|by constructor].
  inversion Hr; subst. by constructor.
Qed.

Lemma insert_back_sorted x l :
  Sorted ascending l → Sorted ascending (insert_back less x l).
Proof.
  induction 1 as [|y r Hr IH Hhd]; simpl.
  - by repeat constructor.
  - destruct (less x y) eqn:Hxy; unfold less in Hxy.
    + constructor; [done|]. apply insert_back_HdRel; [done|].
      unfold ascending. lia.
    + constructor; [by constructor|]. constructor. unfold ascending. lia.
Qed.

Lemma insert_all_sorted l acc :
  Sorted ascending acc →
  Sorted ascending (foldl (λ acc x, insert_back less x acc) acc l).
Proof.
  revert acc. induction l as [|x l IH]; intros acc Hacc; simpl; [done|].
  by apply IH, insert_back_sorted.
Qed.

Lemma SliceStable_sorted l : Sorted (flip ascending) (SliceStable less l).
Proof. apply Sorted_reverse, insert_all_sorted. constructor. Qed.

(** Elements with equal keys are never moved past each other. *)
Lemma insert_back_filter n x l :
  filter (λ a, f a = n) (insert_back less x l)
  = filter (λ a, f a = n) (x :: l).
Proof.
  induction l as [|y r IH]; simpl; [done|].
  destruct (less x y) eqn:Hxy; [|done]. unfold less in Hxy.
  rewrite (filter_cons _ y), IH, !(filter_cons _ x), (filter_cons _ y).
  repeat case_decide; (done || lia).
Qed.

Lemma insert_all_filter n l acc :
  filter (λ a, f a = n) (foldl (λ acc x, insert_back less x acc) acc l)
  = reverse (filter (λ a, f a = n) l) ++ filter (λ a, f a = n) acc.
Proof.
  revert acc. induction l as [|x l IH]; intros acc; simpl; [done|].
  rewrite IH, insert_back_filter, !(filter_cons _ x).
  case_decide; [|done].
  by rewrite reverse_cons, <- app_assoc.
Qed.

Lemma SliceStable_stable n l :
  filter (λ a, f a = n) (SliceStable less l) = filter (λ a, f a = n) l.
Proof.
  unfold SliceStable.
  by rewrite filter_reverse, insert_all_filter, app_nil_r, reverse_involutive.
Qed.

Lemma Sorted_adjacent (R : relation A) l i a b :
  Sorted R l → l !! i = Some a → l !! S i = Some b → R a b.
Proof.
  intros Hl. revert i. induction Hl as [|x l Hl IH Hhd]; intros i; [done|].
  destruct i as [|i]; simpl.
  - intros [= ->] Hb. destruct l as [|y l]; simplify_eq/=. by inversion Hhd.
  - apply IH.
Qed.

(** A list sorted by decreasing key is determined by the order of its
    elements within each key. *)
Lemma sorted_by_ties_unique l1 l2 :
  Sorted (flip ascending) l1 → Sorted (flip ascending) l2 →
  (∀ n, filter (λ a, f a = n) l1 = filter (λ a, f a = n) l2) →
  l1 = l2.
Proof.
  intros H1 H2. apply Sorted_StronglySorted in H1, H2; try apply _.
  revert l2 H2. induction H1 as [|a l1 Hl1 IH Ha]; intros l2 H2 Hties.
  - destruct l2 as [|b l2]; [done|].
    specialize (Hties (f b)). by rewrite filter_cons_True in Hties.
  - destruct H2 as [|b l2 Hl2 Hb].
    { specialize (Hties (f a)). by rewrite filter_cons_True in Hties. }
    assert (a ∈ b :: l2) as Hin1.
    { eapply (proj1 (list_elem_of_filter (λ x, f x = f a) _ _)).
      rewrite <- Hties, filter_cons_True by done. left. }
    assert (b ∈ a :: l1) as Hin2.
    { eapply (proj1 (list_elem_of_filter (λ x, f x = f b) _ _)).
      rewrite Hties, filter_cons_True by done. left. }
    rewrite Forall_forall in Ha, Hb.
    assert (f a = f b) as Hab.
    { apply elem_of_cons in Hin1 as [->|Hin1]; [done|].
      apply elem_of_cons in Hin2 as [->|Hin2]; [done|].
      apply Hb in Hin1. apply Ha in Hin2.
      unfold flip, ascending in *. lia. }
    assert (a = b) as <-.
    { specialize (Hties (f a)).
      rewrite !filter_cons_True in Hties by done. congruence. }
    f_equal. apply IH; [done|]. intros n. specialize (Hties n).
    rewrite !(filter_cons _ a) in Hties. case_decide; congruence.
Qed.

(** Whatever algorithm sorts [l] by decreasing key without moving equal
    keys past each other ends with the list [SliceStable] gives. *)
Lemma SliceStable_unique l out :
  Sorted (flip ascending) out →
  (∀ n, filter (λ a, f a = n) out = filter (λ a, f a = n) l) →
  out = SliceStable less l.
Proof.
  intros Hsorted Hstable.
  apply sorted_by_ties_unique; [done|apply SliceStable_sorted|].
  intros n. by rewrite SliceStable_stable.
Qed.
End by_key.
End GoSortFacts.

Section ranking.
Implicit Types (m : gmap string Z) (ks : list string).

Lemma fill_loop (ks filled : list string) (rest : list string) :
  length rest = length ks →
  foldl (λ '(i, l) k, (S i, <[i := k]> l)) (length filled, filled ++ rest) ks
  = (length filled + length ks, filled ++ ks)%nat.
Proof.
  revert filled rest.
  induction ks as [|k ks IH]; intros filled rest Hlen; simpl.
  - destruct rest; [|done]. by rewrite Nat.add_0_r.
  - destruct rest as [|r rest]; [done|].
    rewrite insert_app_r_alt, Nat.sub_diag by done. simpl.
    replace (S (length filled)) with (length (filled ++ [k]))
      by (rewrite length_app; simpl; lia).
    rewrite (cons_middle k filled rest), app_assoc.
    rewrite IH by (simpl in Hlen; lia).
    rewrite length_app, <- app_assoc. simpl. f_equal. lia.
Qed.

(** The loop fills the slice with the keys, in the order of the loop. *)
Lemma fill_keys_exact ks :
  fill_keys ks (replicate (length ks) "") = ks.
Proof.
  unfold fill_keys.
  pose proof (fill_loop ks [] (replicate (length ks) "")
                (length_replicate _ _)) as Hloop.
  simpl in Hloop. by rewrite Hloop.
Qed.

Lemma range_of_length m ks : range_of m ks → length ks = size m.
Proof.
  unfold range_of. intros ->. by rewrite length_fmap, length_map_to_list.
Qed.

Lemma range_of_NoDup m ks : range_of m ks → NoDup ks.
Proof. unfold range_of. intros ->. apply NoDup_fst_map_to_list. Qed.

Lemma range_of_elem m ks k : range_of m ks → k ∈ ks ↔ is_Some (m !! k).
Proof.
  unfold range_of. intros ->. rewrite list_elem_of_fmap. split.
  - intros [[k' v] [-> Hin]]. apply elem_of_map_to_list in Hin. by exists v.
  - intros [v Hv]. exists (k, v). split; [done|]. by apply elem_of_map_to_list.
Qed.

Lemma NoDup_elem_range_of m ks :
  NoDup ks → (∀ k, k ∈ ks ↔ is_Some (m !! k)) → range_of m ks.
Proof.
  intros Hnd Hks. apply NoDup_Permutation; [done|apply NoDup_fst_map_to_list|].
  intros k. rewrite Hks. symmetry. apply (range_of_elem m); by unfold range_of.
Qed.

Lemma rank_unfold m ks :
  range_of m ks →
  getMostCommonCharactersList m ks
  = GoSort.SliceStable (λ a b, at_key m b <? at_key m a) ks.
Proof.
  intros Hks. unfold getMostCommonCharactersList.
  by rewrite <- (range_of_length m ks), fill_keys_exact.
Qed.

(** C3.  Whatever the order [ks] in which the [range] loop enumerates the
    map, the list returned holds every key of the map exactly once, so it
    is as long as the map is large, and every element has a count at
    least that of the element after it; an empty map gives an empty
    list.  The function returns the list alone: the map is only read. *)
Theorem rank_sorted_permutation m ks :
  range_of m ks →
  let out := getMostCommonCharactersList m ks in
  out ≡ₚ (map_to_list m).*1
  ∧ NoDup out
  ∧ (∀ k, k ∈ out ↔ is_Some (m !! k))
  ∧ length out = size m
  ∧ (∀ i a b, out !! i = Some a → out !! S i = Some b →
              at_key m b ≤ at_key m a)
  ∧ (m = ∅ → out = []).
Proof.
  intros Hks out. subst out. rewrite rank_unfold by done.
  pose proof (GoSortFacts.SliceStable_perm (at_key m) ks) as Hperm.
  cbv zeta in Hperm.
  assert (range_of m (GoSort.SliceStable (λ a b, at_key m b <? at_key m a) ks))
    as Hout by (unfold range_of in *; by rewrite Hperm).
  split; [exact Hout|].
  split; [by eapply range_of_NoDup|].
  split; [intros k; by eapply range_of_elem|].
  split; [by eapply range_of_length|].
  split.
  - intros i a b Ha Hb.
    by apply (GoSortFacts.Sorted_adjacent _ _ _ _ _
                (GoSortFacts.SliceStable_sorted (at_key m) ks) Ha Hb).
  - intros ->. apply range_of_length in Hout.
    rewrite map_size_empty in Hout. by apply nil_length_inv.
Qed.

(** C2, as the code has it.  The list returned is a function of the map
    and of the order [ks] in which the [range] loop enumerates it: keys
    with the same count come out in the order the loop met them, and two
    loop orders that agree on the order of the keys within every count
    give the same list.  The code has no other tie-break. *)
Theorem rank_ties_in_range_order m ks :
  range_of m ks →
  (∀ n, filter (λ k, at_key m k = n) (getMostCommonCharactersList m ks)
        = filter (λ k, at_key m k = n) ks)
  ∧ (∀ ks', range_of m ks' →
       (∀ n, filter (λ k, at_key m k = n) ks'
             = filter (λ k, at_key m k = n) ks) →
       getMostCommonCharactersList m ks' = getMostCommonCharactersList m ks).
Proof.
  intros Hks. split.
  - intros n. rewrite rank_unfold by done.
    apply (GoSortFacts.SliceStable_stable (at_key m)).
  - intros ks' Hks' Hties. rewrite !rank_unfold by done.
    apply (GoSortFacts.sorted_by_ties_unique (at_key m)).
    + apply (GoSortFacts.SliceStable_sorted (at_key m)).
    + apply (GoSortFacts.SliceStable_sorted (at_key m)).
    + intros n.
      rewrite !(GoSortFacts.SliceStable_stable (at_key m)). apply Hties.
Qed.
End ranking.

Lemma range_of_tied_forward : range_of Fixture.tied ["あ"; "い"].
Proof.
  apply NoDup_elem_range_of.
  { apply (bool_decide_unpack (NoDup ["あ"; "い"])). by vm_compute. }
  intros k. unfold Fixture.tied.
  rewrite !elem_of_cons, elem_of_nil.
  destruct (decide (k = "あ")) as [->|]; [by split; eauto|].
  destruct (decide (k = "い")) as [->|]; [by split; eauto|].
  rewrite lookup_insert_ne, lookup_singleton_ne by done.
  split; [by intros [?|[?|[]]]|]. by intros [? ?].
Qed.

Lemma range_of_tied_backward : range_of Fixture.tied ["い"; "あ"].
Proof.
  pose proof range_of_tied_forward as H. unfold range_of in *.
  rewrite <- H. apply perm_swap.
Qed.

(** C2 as the specification words it fails: on a map with two characters
    seen once each, the two orders in which the loop may enumerate the keys
    give two different rankings, and one of them puts the larger code point
    first. *)
Lemma rank_not_reproducible :
  range_of Fixture.tied ["あ"; "い"]
  ∧ range_of Fixture.tied ["い"; "あ"]
  ∧ getMostCommonCharactersList Fixture.tied ["あ"; "い"] = ["あ"; "い"]
  ∧ getMostCommonCharactersList Fixture.tied ["い"; "あ"] = ["い"; "あ"]
  ∧ getMostCommonCharactersList Fixture.tied ["あ"; "い"]
    ≠ getMostCommonCharactersList Fixture.tied ["い"; "あ"]
  ∧ String.ltb "あ" "い" = true.
Proof.
  split; [apply range_of_tied_forward|].
  split; [apply range_of_tied_backward|].
  split; [by vm_compute|]. split; [by vm_compute|].
  split; [by vm_compute|]. by vm_compute.
Qed.

Lemma range_of_empty : range_of (∅ : gmap string Z) [].
Proof. unfold range_of. by rewrite map_to_list_empty. Qed.

Lemma rank_sorted_permutation_witness :
  (range_of Fixture.tied ["い"; "あ"]
   ∧ length (getMostCommonCharactersList Fixture.tied ["い"; "あ"])
     = size Fixture.tied)
  ∧ (range_of (∅ : gmap string Z) []
     ∧ getMostCommonCharactersList ∅ [] = []).
Proof.
  split.
  - split; [apply range_of_tied_backward|].
    apply (rank_sorted_permutation Fixture.tied ["い"; "あ"]).
    apply range_of_tied_backward.
  - split; [apply range_of_empty|].
    by apply (rank_sorted_permutation ∅ [] range_of_empty).
Defined.

Lemma rank_ties_in_range_order_witness :
  range_of Fixture.tied ["い"; "あ"]
  ∧ filter (λ k, at_key Fixture.tied k = 1)
      (getMostCommonCharactersList Fixture.tied ["い"; "あ"])
    = filter (λ k, at_key Fixture.tied k = 1) ["い"; "あ"]
  ∧ getMostCommonCharactersList Fixture.tied ["い"; "あ"]
    = getMostCommonCharactersList Fixture.tied ["い"; "あ"].
Proof.
  pose proof (rank_ties_in_range_order Fixture.tied ["い"; "あ"]
                range_of_tied_backward) as [Hstable Hsame].
  split; [apply range_of_tied_backward|].
  split; [apply Hstable|].
  apply Hsame; [apply range_of_tied_backward|done].
Defined.

(** ** The link filter *)

Section link_facts.
Import GoStringsFacts.

Lemma check_iff (val : string) :
  check val = true ↔
    val ≠ ""
    ∧ (∀ t, val ≠ "http" +:+ t)
    ∧ (∀ t, val ≠ "#" +:+ t)
    ∧ (∀ t, val ≠ ".." +:+ t)
    ∧ (∃ t, val = t +:+ ".html").
Proof.
  unfold check. cbv zeta.
  rewrite !andb_true_iff, !negb_true_iff, length_pos_iff, HasSuffix_iff.
  rewrite <- !not_true_iff_false, !HasPrefix_iff.
  split.
  - intros ((((? & Hh) & Hf) & Hp) & ?).
    repeat split; [done|intros t ->; apply Hh|intros t ->; apply Hf
                   |intros t ->; apply Hp|done]; by exists t.
  - intros (? & Hh & Hf & Hp & ?).
    repeat split; [done|intros [t ->]; by eapply Hh
                   |intros [t ->]; by eapply Hf
                   |intros [t ->]; by eapply Hp|done].
Qed.

Example check_samples :
  check "page2.html" = true ∧ check "sub/page3.html" = true
  ∧ check "http://other.site/page.html" = false ∧ check "#section" = false
  ∧ check "../parent.html" = false ∧ check "page.htm" = false
  ∧ check "" = false.
Proof. repeat split. Qed.

Lemma join_inj (url v1 v2 : string) :
  url +:+ "/" +:+ v1 = url +:+ "/" +:+ v2 → v1 = v2.
Proof. intros Heq. by do 2 apply String.app_inj in Heq. Qed.

Lemma elem_of_scanAttrs url attrs links nextURL :
  nextURL ∈ scanAttrs url attrs links ↔
    nextURL ∈ links
    ∨ ∃ val, val ∈ Val <$> filter (λ attr, Key attr = "href") attrs
             ∧ check val = true ∧ nextURL = url +:+ "/" +:+ val.
Proof.
  unfold scanAttrs. revert links.
  induction attrs as [|attr attrs IH]; intros links; simpl.
  - split; [by left|]. intros [?|(val & Hin & _)]; [done|].
    by apply elem_of_nil in Hin.
  - rewrite IH, filter_cons. clear IH.
    destruct (String.eqb_spec (Key attr) "href") as [Hkey|Hkey].
    + rewrite decide_True by done. rewrite fmap_cons.
      setoid_rewrite elem_of_cons.
      destruct (check (Val attr)) eqn:Hcheck.
      * rewrite elem_of_union, elem_of_singleton. split.
        -- intros [[->|?]|(val & ? & ? & ?)]; eauto 8.
        -- intros [?|(val & [->|?] & ? & ?)]; eauto 8.
      * split.
        -- intros [?|(val & ? & ? & ?)]; eauto 8.
        -- intros [?|(val & [->|?] & ? & ?)]; [eauto| congruence |eauto 8].
    + by rewrite decide_False by done.
Qed.

Lemma elem_of_scanTokens url toks links nextURL :
  nextURL ∈ scanTokens url toks links ↔
    nextURL ∈ links
    ∨ ∃ val, val ∈ hrefs toks ∧ check val = true
             ∧ nextURL = url +:+ "/" +:+ val.
Proof.
  revert links. induction toks as [|token rest IH]; intros links; simpl.
  - split; [by left|]. intros [?|(val & Hin & _)]; [done|].
    by apply elem_of_nil in Hin.
  - destruct (isError (TokType token)).
    { split; [by left|]. intros [?|(val & Hin & _)]; [done|].
      by apply elem_of_nil in Hin. }
    destruct (isStartTag (TokType token) && String.eqb (Data token) "a");
      [|apply IH].
    rewrite IH, elem_of_scanAttrs. setoid_rewrite elem_of_app. split.
    + intros [[?|(val & ? & ? & ?)]|(val & ? & ? & ?)]; eauto 8.
    + intros [?|(val & [?|?] & ? & ?)]; eauto 8.
Qed.

Lemma elem_of_childLinks `{Html} url text nextURL :
  nextURL ∈ childLinks url text ↔
    ∃ val, val ∈ hrefs (Tokens text) ∧ check val = true
           ∧ nextURL = url +:+ "/" +:+ val.
Proof.
  unfold childLinks. rewrite elem_of_scanTokens. split; [|by right].
  intros [Hin|?]; [|done]. by apply not_elem_of_empty in Hin.
Qed.
End link_facts.

(** ** The crawl *)

Section crawler_facts.
Context `{Kana, Network, Html, MapRange}.

Lemma fetched_app tr1 tr2 : fetched (tr1 ++ tr2) = fetched tr1 ++ fetched tr2.
Proof. apply omap_app. Qed.

Lemma fetched_report u : fetched (report u) = [].
Proof. unfold report. by destruct (Get u). Qed.

Lemma fetched_events_for us : fetched (events_for us) = us.
Proof.
  unfold events_for. induction us as [|u us IH]; [done|].
  rewrite bind_cons.
  change (HttpGet u :: report u) with ([HttpGet u] ++ report u).
  by rewrite !fetched_app, fetched_report, IH.
Qed.

Lemma printed_app tr1 tr2 : printed (tr1 ++ tr2) = printed tr1 ++ printed tr2.
Proof. apply omap_app. Qed.

(** What is printed for a list of fetches: one line per fetch that fails. *)
Lemma printed_events_for us :
  printed (events_for us) = us ≫= λ u, printed (report u).
Proof.
  unfold events_for. induction us as [|u us IH]; [done|].
  rewrite !bind_cons, printed_app. by rewrite IH.
Qed.

Lemma events_for_cons u us :
  events_for (u :: us) = HttpGet u :: report u ++ events_for us.
Proof. reflexivity. Qed.

Lemma events_for_app us1 us2 :
  events_for (us1 ++ us2) = events_for us1 ++ events_for us2.
Proof. apply bind_app. Qed.

(** The shape of [routine], with [layer] as the source has it. *)
Lemma routine_unfold url layer st :
  routine url layer st
  = if layer <? 0 then st
    else
      let st := emit (HttpGet url) st in
      match Get url with
      | GetFails err => emit (Println ("unable to fetching url. " +:+ err)) st
      | ReadFails err => emit (Println ("unable to read body. " +:+ err)) st
      | Body text =>
          let st := Crawl (observe_all (chars text) (counter st)) (trace st) in
          foldl (λ st nextURL, routine nextURL (layer - 1) st) st
                (range_order (fetched (trace st))
                             (elements (childLinks url text)))
      end.
Proof.
  unfold routine. destruct (Z.ltb_spec layer 0) as [Hneg|Hpos].
  - by replace (Z.to_nat (layer + 1)) with O by lia.
  - replace (Z.to_nat (layer + 1)) with (S (Z.to_nat layer)) by lia.
    replace (Z.to_nat (layer - 1 + 1)) with (Z.to_nat layer) by lia.
    reflexivity.
Qed.

Lemma runs_fold (step : string → crawl → crawl)
    (P : string → string → Prop) (children : list string) :
  (∀ c, runs (step c) (P c)) →
  runs (λ st, foldl (λ st c, step c st) st children)
       (λ u, ∃ c, c ∈ children ∧ P c u).
Proof.
  intros Hstep. induction children as [|c children IH]; intros st; simpl.
  - exists []. split; [by rewrite app_nil_r|]. split; [done|].
    intros u. split; [by intros ?%elem_of_nil|].
    by intros (c & ?%elem_of_nil & _).
  - destruct (Hstep c st) as (us1 & Htr1 & Hfc1 & Hin1).
    destruct (IH (step c st)) as (us2 & Htr2 & Hfc2 & Hin2).
    exists (us1 ++ us2). split; [|split].
    + by rewrite Htr2, Htr1, events_for_app, app_assoc.
    + by rewrite Hfc2, Hfc1, foldl_app.
    + intros u. rewrite elem_of_app, Hin1, Hin2.
      setoid_rewrite elem_of_cons. split.
      * intros [?|(c' & ? & ?)]; eauto.
      * intros (c' & [->|?] & ?); eauto.
Qed.

Lemma reach_failed k url u :
  (∀ text, Get url ≠ Body text) → reach k url u → u = url.
Proof. intros Hget. inversion 1; subst; [done|]. by destruct (Hget text). Qed.

Lemma routine_at_runs n url :
  runs (routine_at n url) (λ u, ∃ k, (k < n)%nat ∧ reach k url u).
Proof.
  revert url. induction n as [|n IH]; intros url st.
  { exists []. simpl. split; [by rewrite app_nil_r|]. split; [done|].
    intros u. split; [by intros ?%elem_of_nil|]. intros (k & ? & _). lia. }
  assert (∀ u, (∀ text, Get url ≠ Body text) →
            u ∈ [url] ↔ ∃ k, (k < S n)%nat ∧ reach k url u) as Hleaf.
  { intros u Hget. rewrite list_elem_of_singleton. split.
    - intros ->. exists O. split; [lia|constructor].
    - intros (k & _ & Hreach). by eapply reach_failed. }
  simpl. destruct (Get url) as [err|err|text] eqn:Hget.
  - exists [url]. unfold events_for, emit. simpl. unfold report.
    rewrite Hget. simpl. rewrite <- app_assoc. split; [done|].
    split; [unfold count_page; by rewrite Hget|].
    intros u. apply Hleaf. congruence.
  - exists [url]. unfold events_for, emit. simpl. unfold report.
    rewrite Hget. simpl. rewrite <- app_assoc. split; [done|].
    split; [unfold count_page; by rewrite Hget|].
    intros u. apply Hleaf. congruence.
  - set (st1 := Crawl _ _).
    set (children := range_order _ _).
    destruct (runs_fold (routine_at n) _ children IH st1)
      as (us & Htr & Hfc & Hin).
    exists (url :: us). split; [|split].
    + rewrite Htr, events_for_cons. unfold st1, report. rewrite Hget.
      simpl. by rewrite <- app_assoc.
    + rewrite Hfc. simpl. f_equal. unfold count_page. by rewrite Hget.
    + intros u. rewrite elem_of_cons, Hin. split.
      * intros [->|(c & Hc & k & Hk & Hreach)].
        { exists O. split; [lia|constructor]. }
        exists (S k). split; [lia|]. eapply reach_hop; [done| |done].
        unfold children in Hc.
        by rewrite range_order_perm, elem_of_elements in Hc.
      * intros (k & Hk & Hreach).
        inversion Hreach as [|k' ? text' c ? Hget' Hc Hreach']; subst;
          [by left|].
        rewrite Hget in Hget'. injection Hget' as <-.
        right. exists c. split.
        { unfold children. by rewrite range_order_perm, elem_of_elements. }
        exists k'. split; [lia|done].
Qed.

Lemma routine_runs url layer :
  runs (routine url layer) (λ u, ∃ k : nat, Z.of_nat k ≤ layer ∧ reach k url u).
Proof.
  intros st. unfold routine.
  destruct (routine_at_runs (Z.to_nat (layer + 1)) url st)
    as (us & Htr & Hfc & Hin).
  exists us. split; [done|]. split; [done|].
  intros u. rewrite Hin. split; intros (k & Hk & ?); exists k; (split; [lia|done]).
Qed.

(** One call of [routine]: what it adds to the trace, what it counts and
    which URLs it fetches. *)
Lemma routine_run url layer st :
  trace (routine url layer st) = trace st ++ events_for (fetches url layer st)
  ∧ counter (routine url layer st)
    = foldl count_page (counter st) (fetches url layer st)
  ∧ ∀ u, u ∈ fetches url layer st ↔
         ∃ k : nat, Z.of_nat k ≤ layer ∧ reach k url u.
Proof.
  destruct (routine_runs url layer st) as (us & Htr & Hfc & Hin).
  assert (fetches url layer st = us) as ->; [|done].
  unfold fetches, events_of.
  by rewrite Htr, drop_app_length, fetched_events_for.
Qed.

Lemma routine_exhausted url layer st : layer < 0 → routine url layer st = st.
Proof.
  intros Hneg. rewrite routine_unfold.
  by destruct (Z.ltb_spec layer 0); [|lia].
Qed.

Lemma foldl_exhausted (children : list string) layer st :
  layer < 0 →
  foldl (λ st nextURL, routine nextURL layer st) st children = st.
Proof.
  intros Hneg. induction children as [|c children IH]; simpl; [done|].
  by rewrite routine_exhausted.
Qed.

Lemma routine_fails url layer st :
  0 ≤ layer → (∀ text, Get url ≠ Body text) →
  routine url layer st
  = Crawl (counter st) (trace st ++ HttpGet url :: report url).
Proof.
  intros Hpos Hget. rewrite routine_unfold.
  destruct (Z.ltb_spec layer 0); [lia|]. unfold report, emit. simpl.
  destruct (Get url) as [err|err|text]; simpl;
    [by rewrite <- app_assoc..|by destruct (Hget text)].
Qed.

Lemma routine_last_layer url st :
  routine url 0 st
  = Crawl (count_page (counter st) url)
          (trace st ++ HttpGet url :: report url).
Proof.
  rewrite routine_unfold. simpl. unfold count_page, report, emit. simpl.
  destruct (Get url) as [err|err|text]; simpl; [by rewrite <- app_assoc..|].
  by rewrite foldl_exhausted by lia.
Qed.

(** A call of [routine] looks at the trace only to append to it: two
    states with the same counter and the same URLs fetched so far lead to
    the same new events and the same counter. *)
Lemma foldl_same_run (step : string → crawl → crawl) (children : list string) :
  (∀ c st st',
     counter st = counter st' → fetched (trace st) = fetched (trace st') →
     ∃ evs, trace (step c st) = trace st ++ evs
            ∧ trace (step c st') = trace st' ++ evs
            ∧ counter (step c st) = counter (step c st')) →
  ∀ st st',
    counter st = counter st' → fetched (trace st) = fetched (trace st') →
    ∃ evs, trace (foldl (λ st c, step c st) st children) = trace st ++ evs
           ∧ trace (foldl (λ st c, step c st) st' children) = trace st' ++ evs
           ∧ counter (foldl (λ st c, step c st) st children)
             = counter (foldl (λ st c, step c st) st' children).
Proof.
  intros Hstep. induction children as [|c children IH]; intros st st' Hfc Htr.
  - exists []. by rewrite !app_nil_r.
  - simpl. destruct (Hstep c st st' Hfc Htr) as (evs1 & Htr1 & Htr1' & Hfc1).
    destruct (IH (step c st) (step c st') Hfc1) as (evs2 & Htr2 & Htr2' & Hfc2).
    { by rewrite Htr1, Htr1', !fetched_app, Htr. }
    exists (evs1 ++ evs2).
    by rewrite Htr2, Htr2', Htr1, Htr1', !app_assoc.
Qed.

Lemma routine_at_same_run n url st st' :
  counter st = counter st' → fetched (trace st) = fetched (trace st') →
  ∃ evs, trace (routine_at n url st) = trace st ++ evs
         ∧ trace (routine_at n url st') = trace st' ++ evs
         ∧ counter (routine_at n url st) = counter (routine_at n url st').
Proof.
  revert url st st'. induction n as [|n IH]; intros url st st' Hfc Htr.
  { exists []. by rewrite !app_nil_r. }
  simpl. destruct (Get url) as [err|err|text].
  - eexists [_; _]. simpl. by rewrite <- !app_assoc.
  - eexists [_; _]. simpl. by rewrite <- !app_assoc.
  - simpl. rewrite !fetched_app, <- Htr, <- Hfc.
    set (children := range_order _ _).
    destruct (foldl_same_run (routine_at n) children IH
                (Crawl (observe_all (chars text) (counter st))
                       (trace st ++ [HttpGet url]))
                (Crawl (observe_all (chars text) (counter st))
                       (trace st' ++ [HttpGet url])))
      as (evs & Hevs & Hevs' & Hcount); [done|simpl; by rewrite !fetched_app, Htr|].
    exists (HttpGet url :: evs). simpl in *.
    by rewrite Hevs, Hevs', <- !app_assoc.
Qed.

Lemma child_is_fetched url layer st text nextURL :
  1 ≤ layer → Get url = Body text → nextURL ∈ childLinks url text →
  nextURL ∈ fetches url layer st.
Proof.
  intros Hlayer Hget Hchild.
  apply (routine_run url layer st). exists 1%nat. split; [lia|].
  eapply reach_hop; [done..|constructor].
Qed.
End crawler_facts.

Section crawl_claims.
Context `{Kana, Network, Html, MapRange}.

(** C4.  With depth budget 0, [routine] fetches the root page, counts it
    if it could be read, and fetches nothing else, whatever links the
    page has.  With a budget below 0 it returns the state it was given.
    With budget [layer], the URLs fetched are those at most [layer] links
    away from the root along pages that could be read. *)
Theorem depth_budget url layer st :
  (routine url 0 st
   = Crawl (count_page (counter st) url)
           (trace st ++ HttpGet url :: report url)
   ∧ fetches url 0 st = [url])
  ∧ (layer < 0 → routine url layer st = st ∧ fetches url layer st = [])
  ∧ (∀ u, u ∈ fetches url layer st ↔
          ∃ k : nat, Z.of_nat k ≤ layer ∧ reach k url u).
Proof.
  split; [split|split].
  - apply routine_last_layer.
  - unfold fetches, events_of.
    rewrite routine_last_layer; simpl. rewrite drop_app_length.
    change (HttpGet url :: report url) with ([HttpGet url] ++ report url).
    by rewrite fetched_app, fetched_report.
  - intros Hneg. unfold fetches, events_of.
    rewrite routine_exhausted by done. by rewrite drop_all.
  - apply routine_run.
Qed.

(** C5.  An [href] value passes the test exactly when it is not empty,
    does not begin with [http], [#] or [..] and ends with [.html].  The
    child links of a page are the values that pass, each appended to the
    page's URL after a slash; two values give the same link only if they
    are equal, so a value found on the page is followed exactly when it
    passes.  A page that could be read makes one recursive call per
    child link, with the budget lowered by one; and when the budget
    allows, every child link is fetched by this call, whatever the crawl
    has fetched before. *)
Theorem followed_links url text layer st :
  (∀ val, check val = true ↔
            val ≠ ""
            ∧ (∀ t, val ≠ "http" +:+ t)
            ∧ (∀ t, val ≠ "#" +:+ t)
            ∧ (∀ t, val ≠ ".." +:+ t)
            ∧ (∃ t, val = t +:+ ".html"))
  ∧ (∀ nextURL, nextURL ∈ childLinks url text ↔
       ∃ val, val ∈ hrefs (Tokens text) ∧ check val = true
              ∧ nextURL = url +:+ "/" +:+ val)
  ∧ (∀ v1 v2, url +:+ "/" +:+ v1 = url +:+ "/" +:+ v2 → v1 = v2)
  ∧ (∀ val, val ∈ hrefs (Tokens text) →
       url +:+ "/" +:+ val ∈ childLinks url text ↔
         val ≠ ""
         ∧ (∀ t, val ≠ "http" +:+ t)
         ∧ (∀ t, val ≠ "#" +:+ t)
         ∧ (∀ t, val ≠ ".." +:+ t)
         ∧ (∃ t, val = t +:+ ".html"))
  ∧ (0 ≤ layer → Get url = Body text →
     ∃ children,
       NoDup children
       ∧ (∀ nextURL, nextURL ∈ children ↔ nextURL ∈ childLinks url text)
       ∧ routine url layer st
         = foldl (λ st nextURL, routine nextURL (layer - 1) st)
                 (Crawl (observe_all (chars text) (counter st))
                        (trace st ++ [HttpGet url]))
                 children)
  ∧ (1 ≤ layer → Get url = Body text →
     ∀ nextURL, nextURL ∈ childLinks url text →
                nextURL ∈ fetches url layer st).
Proof.
  split; [apply check_iff|].
  split; [intros nextURL; apply elem_of_childLinks|].
  split; [apply join_inj|].
  split.
  { intros val Hval. rewrite <- check_iff, elem_of_childLinks. split.
    - intros (val' & _ & Hcheck & Heq). by apply join_inj in Heq as ->.
    - intros Hcheck. by exists val. }
  split.
  - intros Hpos Hget.
    exists (range_order (fetched (trace st ++ [HttpGet url]))
                        (elements (childLinks url text))).
    split; [|split].
    + rewrite range_order_perm. apply NoDup_elements.
    + intros nextURL. by rewrite range_order_perm, elem_of_elements.
    + rewrite routine_unfold. destruct (Z.ltb_spec layer 0); [lia|].
      cbv zeta. by rewrite Hget.
  - intros Hlayer Hget nextURL Hchild. by eapply child_is_fetched.
Qed.

(** C8.  A fetch that fails, at [http.Get] or while reading the body, is
    attempted once and reported; the call returns with the counter as it
    was and fetches nothing below that URL.  For the crawl as a whole,
    the trace holds the fetches in order, each failed one followed by its
    report, so that one line is printed per failed fetch; the counter is
    the one obtained by counting, in that order, every fetched page that
    could be read; and the URLs fetched are those that can be reached
    within the budget along pages that could be read, so a failure hides
    only what lies behind it. *)
Theorem failure_is_local url layer st :
  (0 ≤ layer → ∀ err, Get url = GetFails err →
     routine url layer st
     = Crawl (counter st)
             (trace st ++ [HttpGet url;
                           Println ("unable to fetching url. " +:+ err)]))
  ∧ (0 ≤ layer → ∀ err, Get url = ReadFails err →
     routine url layer st
     = Crawl (counter st)
             (trace st ++ [HttpGet url;
                           Println ("unable to read body. " +:+ err)]))
  ∧ trace (routine url layer st)
    = trace st ++ events_for (fetches url layer st)
  ∧ printed (events_of url layer st)
    = (fetches url layer st ≫= λ u,
         match Get u with
         | GetFails err => ["unable to fetching url. " +:+ err]
         | ReadFails err => ["unable to read body. " +:+ err]
         | Body _ => []
         end)
  ∧ counter (routine url layer st)
    = foldl count_page (counter st) (fetches url layer st)
  ∧ (∀ u, u ∈ fetches url layer st ↔
          ∃ k : nat, Z.of_nat k ≤ layer ∧ reach k url u).
Proof.
  destruct (routine_run url layer st) as (Htrace & Hcount & Hreach).
  split; [|split; [|split; [done|split; [|done]]]].
  - intros Hpos err Hget. rewrite routine_fails by (done || congruence).
    unfold report. by rewrite Hget.
  - intros Hpos err Hget. rewrite routine_fails by (done || congruence).
    unfold report. by rewrite Hget.
  - unfold events_of at 1. rewrite Htrace, drop_app_length, printed_events_for.
    apply list_bind_ext; [|done]. intros u. unfold report.
    by destruct (Get u).
Qed.
End crawl_claims.

(** On the sample site, with budget 2: the page [a.html/c.html] is linked
    from the root and from [a.html], and is fetched once for each; the
    fetch of [b.html] fails and the crawl goes on. *)
Example sample_crawl :
  trace (Fixture.crawlFrom Fixture.rootURL 2)
  = [ HttpGet "http://www.example.jp";
      HttpGet "http://www.example.jp/a.html/c.html";
      HttpGet "http://www.example.jp/a.html";
      HttpGet "http://www.example.jp/a.html/c.html";
      HttpGet "http://www.example.jp/b.html";
      Println "unable to fetching url. connection refused" ]
  ∧ allCharacteresCount (counter (Fixture.crawlFrom Fixture.rootURL 2)) = 12.
Proof. split; by vm_compute. Qed.

Lemma depth_budget_witness :
  -1 < 0
  ∧ Fixture.crawlFrom Fixture.rootURL (-1) = Crawl emptyCounter [].
Proof.
  split; [lia|].
  apply (@depth_budget Fixture.overlapKana Fixture.sampleNetwork
           Fixture.sampleHtml Fixture.inOrder
           Fixture.rootURL (-1) (Crawl emptyCounter [])).
  lia.
Defined.

Lemma followed_links_witness :
  (0 ≤ 2 ∧ 1 ≤ 2
   ∧ @Get Fixture.sampleNetwork Fixture.rootURL = Body Fixture.rootText
   ∧ "a.html" ∈ hrefs (@Tokens Fixture.sampleHtml Fixture.rootText)
   ∧ "http://www.example.jp/a.html"
     ∈ @childLinks Fixture.sampleHtml Fixture.rootURL Fixture.rootText)
  ∧ (∃ t, "a.html" = t +:+ ".html")
  ∧ "http://www.example.jp/a.html"
    ∈ @fetches Fixture.overlapKana Fixture.sampleNetwork Fixture.sampleHtml
        Fixture.inOrder Fixture.rootURL 2 (Crawl emptyCounter [])
  ∧ ∃ children,
      NoDup children
      ∧ Fixture.crawlFrom Fixture.rootURL 2
        = foldl (λ st nextURL,
                   @routine Fixture.overlapKana Fixture.sampleNetwork
                     Fixture.sampleHtml Fixture.inOrder nextURL (2 - 1) st)
                (Crawl (@observe_all Fixture.overlapKana
                          (@chars Fixture.sampleHtml Fixture.rootText)
                          emptyCounter)
                       [HttpGet Fixture.rootURL])
                children.
Proof.
  assert ("http://www.example.jp/a.html"
          ∈ @childLinks Fixture.sampleHtml Fixture.rootURL Fixture.rootText)
    as Hchild.
  { apply (bool_decide_unpack _). by vm_compute. }
  assert ("a.html" ∈ hrefs (@Tokens Fixture.sampleHtml Fixture.rootText))
    as Hhref.
  { apply (bool_decide_unpack _). by vm_compute. }
  pose proof (@followed_links Fixture.overlapKana Fixture.sampleNetwork
                Fixture.sampleHtml Fixture.inOrder
                Fixture.rootURL Fixture.rootText 2 (Crawl emptyCounter []))
    as (_ & _ & _ & Hfilter & Hcalls & Hfetched).
  split; [repeat split; (lia || done)|].
  split; [by apply (Hfilter "a.html" Hhref)|].
  split; [apply Hfetched; (lia || done)|].
  destruct Hcalls as (children & Hnd & _ & Hrun); [lia|done|].
  exists children. split; [done|]. exact Hrun.
Defined.

Lemma failure_is_local_witness :
  (0 ≤ 1
   ∧ @Get Fixture.sampleNetwork "http://www.example.jp/b.html"
     = GetFails "connection refused"
   ∧ @Get Fixture.sampleNetwork "http://www.example.jp/d.html"
     = ReadFails "unexpected EOF")
  ∧ Fixture.crawlFrom "http://www.example.jp/b.html" 1
    = Crawl emptyCounter
        [ HttpGet "http://www.example.jp/b.html";
          Println ("unable to fetching url. " +:+ "connection refused") ]
  ∧ Fixture.crawlFrom "http://www.example.jp/d.html" 1
    = Crawl emptyCounter
        [ HttpGet "http://www.example.jp/d.html";
          Println ("unable to read body. " +:+ "unexpected EOF") ].
Proof.
  split; [split; [lia|split; reflexivity]|].
  split.
  - apply (@failure_is_local Fixture.overlapKana Fixture.sampleNetwork
             Fixture.sampleHtml Fixture.inOrder
             "http://www.example.jp/b.html" 1 (Crawl emptyCounter []));
      [lia|reflexivity].
  - apply (@failure_is_local Fixture.overlapKana Fixture.sampleNetwork
             Fixture.sampleHtml Fixture.inOrder
             "http://www.example.jp/d.html" 1 (Crawl emptyCounter []));
      [lia|reflexivity].
Defined.

(** ** The constructor *)

Lemma apply_options_logs options opts tr :
  ∃ lines, (apply_options options opts tr).1.2 = tr ++ (LogPrintln <$> lines).
Proof.
  revert opts tr. induction options as [|opt rest IH]; intros opts tr; simpl.
  - exists []. by rewrite app_nil_r.
  - destruct (opt opts) as [[opts' lines] [e|]]; simpl.
    + by exists lines.
    + destruct (IH opts' (tr ++ (LogPrintln <$> lines))) as [lines' ->].
      exists (lines ++ lines'). by rewrite fmap_app, app_assoc.
Qed.

Lemma fetched_logs lines : fetched (LogPrintln <$> lines) = [].
Proof. by induction lines. Qed.

Lemma WithSearchDepth_rejects depth opts :
  ¬ (0 ≤ depth < maxSearchDepth) →
  ∃ e, WithSearchDepth depth opts = (opts, [], Some e).
Proof.
  intros Hout. unfold WithSearchDepth.
  destruct (Z.ltb_spec depth 0); [by eexists|].
  destruct (Z.leb_spec maxSearchDepth depth); [by eexists|]. lia.
Qed.

Lemma WithSearchDepth_accepts depth opts :
  0 ≤ depth < maxSearchDepth →
  WithSearchDepth depth opts
  = (ScraperOptions (Some depth) (loggingMode opts), [], None).
Proof.
  intros Hin. unfold WithSearchDepth.
  destruct (Z.ltb_spec depth 0); [lia|].
  destruct (Z.leb_spec maxSearchDepth depth); [lia|]. done.
Qed.

Lemma apply_options_rejects depth options opts tr :
  ¬ (0 ≤ depth < maxSearchDepth) → WithSearchDepth depth ∈ options →
  ∃ e, (apply_options options opts tr).2 = Some e.
Proof.
  intros Hout Hin. revert opts tr.
  induction options as [|opt rest IH]; intros opts tr.
  { by apply elem_of_nil in Hin. }
  simpl. destruct (opt opts) as [[opts' lines] [e|]] eqn:Hopt; simpl.
  { by exists e. }
  apply elem_of_cons in Hin as [<-|Hin]; [|by apply IH].
  destruct (WithSearchDepth_rejects depth opts Hout) as [e He]. congruence.
Qed.

Lemma apply_options_accepts options opts tr :
  Forall accepted options → (apply_options options opts tr).2 = None.
Proof.
  intros Hall. revert opts tr.
  induction Hall as [|opt rest Hopt _ IH]; intros opts tr; simpl; [done|].
  destruct Hopt as [->|(depth & Hin & ->)].
  - apply IH.
  - rewrite WithSearchDepth_accepts by done. apply IH.
Qed.

Lemma apply_options_only_logging options opts tr :
  Forall (eq WithLogging) options →
  (apply_options options opts tr).2 = None
  ∧ searchDepth (apply_options options opts tr).1.1 = searchDepth opts.
Proof.
  intros Hall. revert opts tr.
  induction Hall as [|opt rest <- _ IH]; intros opts tr; simpl; [done|].
  exact (IH (ScraperOptions (searchDepth opts) true) _).
Qed.

Section scraper_facts.
Context `{Kana, Network, Html, MapRange}.

Lemma newKanjiKanaScraper_failed rootURL options opts tr e :
  apply_options options (ScraperOptions None false) [] = (opts, tr, Some e) →
  newKanjiKanaScraper rootURL options = (tr, Failed e).
Proof. intros Happly. unfold newKanjiKanaScraper. by rewrite Happly. Qed.

Lemma newKanjiKanaScraper_applied rootURL options opts tr :
  apply_options options (ScraperOptions None false) [] = (opts, tr, None) →
  newKanjiKanaScraper rootURL options
  = match searchDepth opts with
    | None => (tr ++ logged rootURL opts, NilDereference)
    | Some depth =>
        let st := routine (if validURL rootURL then rootURL else defaultURL)
                    depth (Crawl emptyCounter (tr ++ logged rootURL opts)) in
        (trace st, Returned (finalize (counter st)))
    end.
Proof.
  intros Happly. unfold newKanjiKanaScraper, logged. rewrite Happly.
  destruct (validURL rootURL), (loggingMode opts), (searchDepth opts);
    simpl; rewrite ?app_nil_r, <- ?app_assoc; reflexivity.
Qed.

Lemma newKanjiKanaScraper_error rootURL options e :
  (newKanjiKanaScraper rootURL options).2 = Failed e →
  (apply_options options (ScraperOptions None false) []).2 = Some e.
Proof.
  destruct (apply_options options (ScraperOptions None false) [])
    as [[opts tr] [e'|]] eqn:Happly.
  - rewrite (newKanjiKanaScraper_failed _ _ _ _ _ Happly). simpl. congruence.
  - rewrite (newKanjiKanaScraper_applied _ _ _ _ Happly).
    by destruct (searchDepth opts).
Qed.
End scraper_facts.

Section scraper_claims.
Context `{Kana, Network, Html, MapRange}.

(** C6.  Once the options have been applied without error, the
    constructor starts the crawl with the pointer [opts.searchDepth]
    dereferenced.  If no option set it, the call ends in a nil pointer
    dereference: nothing is fetched, and the default depth appears only
    in the log line that announces it.  If an option set it, the crawl
    runs with that depth.  A call whose options are all [WithLogging] is
    of the first kind. *)
Theorem crawl_needs_depth_option rootURL options opts tr :
  apply_options options (ScraperOptions None false) [] = (opts, tr, None) →
  (searchDepth opts = None →
     newKanjiKanaScraper rootURL options
     = (tr ++ logged rootURL opts, NilDereference)
     ∧ fetched (newKanjiKanaScraper rootURL options).1 = []
     ∧ (loggingMode opts = true →
        LogPrintln ("search depth set to " +:+ pretty defaultSearchDepth)
        ∈ (newKanjiKanaScraper rootURL options).1))
  ∧ (∀ depth, searchDepth opts = Some depth →
       newKanjiKanaScraper rootURL options
       = let st := routine (if validURL rootURL then rootURL else defaultURL)
                     depth (Crawl emptyCounter (tr ++ logged rootURL opts)) in
         (trace st, Returned (finalize (counter st))))
  ∧ (Forall (eq WithLogging) options →
       (newKanjiKanaScraper rootURL options).2 = NilDereference).
Proof.
  intros Happly.
  pose proof (newKanjiKanaScraper_applied rootURL _ _ _ Happly) as Hnew.
  split; [|split].
  - intros Hnone. rewrite Hnone in Hnew. rewrite Hnew. simpl.
    split; [done|]. split.
    + destruct (apply_options_logs options (ScraperOptions None false) [])
        as [lines Hlines].
      rewrite Happly in Hlines. simpl in Hlines. subst tr.
      rewrite fetched_app, fetched_logs. unfold logged.
      by destruct (negb (validURL rootURL) && loggingMode opts),
           (loggingMode opts).
    + intros Hlog. unfold logged. rewrite Hlog, Hnone. simpl.
      rewrite !elem_of_app. right. right. apply elem_of_cons. by left.
  - intros depth Hsome. by rewrite Hsome in Hnew.
  - intros Hall.
    destruct (apply_options_only_logging options
                (ScraperOptions None false) [] Hall) as [_ Hdepth].
    rewrite Happly in Hdepth. simpl in Hdepth.
    rewrite Hdepth in Hnew. by rewrite Hnew.
Qed.

(** C9.  A depth below 0, or not below [maxSearchDepth], given through
    [WithSearchDepth] makes the constructor return an error: nothing is
    fetched and no counter is returned.  A depth within the range makes
    [WithSearchDepth] store it and report no error, and a call whose
    options are [WithLogging] and [WithSearchDepth] with depths in the
    range returns no error. *)
Theorem depth_is_validated rootURL depth options :
  (¬ (0 ≤ depth < maxSearchDepth) → WithSearchDepth depth ∈ options →
     ∃ e, (newKanjiKanaScraper rootURL options).2 = Failed e
          ∧ fetched (newKanjiKanaScraper rootURL options).1 = [])
  ∧ (¬ (0 ≤ depth < maxSearchDepth) →
     newKanjiKanaScraper rootURL [WithSearchDepth depth; WithLogging]
     = ([], Failed (if depth <? 0
                    then "search depth should be positive"
                    else "search depth exceeds default maximum depth")))
  ∧ (0 ≤ depth < maxSearchDepth →
     ∀ opts, WithSearchDepth depth opts
             = (ScraperOptions (Some depth) (loggingMode opts), [], None))
  ∧ (Forall accepted options →
     ∀ e, (newKanjiKanaScraper rootURL options).2 ≠ Failed e).
Proof.
  split; [|split; [|split]].
  - intros Hout Hin.
    destruct (apply_options_rejects depth options
                (ScraperOptions None false) [] Hout Hin) as [e He].
    destruct (apply_options_logs options (ScraperOptions None false) [])
      as [lines Hlines].
    destruct (apply_options options (ScraperOptions None false) [])
      as [[opts tr] err] eqn:Happly.
    simpl in He, Hlines. subst err tr.
    rewrite (newKanjiKanaScraper_failed _ _ _ _ _ Happly). simpl.
    exists e. split; [done|]. apply fetched_logs.
  - intros Hout. unfold newKanjiKanaScraper, WithSearchDepth. simpl.
    destruct (Z.ltb_spec depth 0); [done|].
    destruct (Z.leb_spec maxSearchDepth depth); [done|]. lia.
  - intros Hin opts. by apply WithSearchDepth_accepts.
  - intros Hall e Hfailed. apply newKanjiKanaScraper_error in Hfailed.
    by rewrite apply_options_accepts in Hfailed.
Qed.

(** C10.  A root URL that fails [validURL] is no error of its own: the
    constructor returns an error only if an option does.  When the
    options are applied without error and set a depth, the constructor
    logs the substitution if logging is on, crawls from [defaultURL] and
    returns the counter.  In every case the call ends as the same call
    with [defaultURL] for root does.  [validURL] holds of a string exactly
    when it begins with [http] and [://www.] occurs in it at one place; it
    holds of [defaultURL]. *)
Theorem invalid_root_falls_back rootURL options :
  validURL rootURL = false →
  (∀ e, (newKanjiKanaScraper rootURL options).2 = Failed e →
        (apply_options options (ScraperOptions None false) []).2 = Some e)
  ∧ (∀ opts tr depth,
       apply_options options (ScraperOptions None false) []
       = (opts, tr, None) →
       searchDepth opts = Some depth →
       newKanjiKanaScraper rootURL options
       = let logs :=
           if loggingMode opts
           then [LogPrintln ("invalid URL, setting to default URL= "
                             +:+ defaultURL);
                 LogPrintln ("search depth set to " +:+ pretty depth)]
           else [] in
         let st := routine defaultURL depth
                     (Crawl emptyCounter (tr ++ logs)) in
         (trace st, Returned (finalize (counter st))))
  ∧ (newKanjiKanaScraper rootURL options).2
    = (newKanjiKanaScraper defaultURL options).2
  ∧ validURL defaultURL = true
  ∧ (∀ url, validURL url = true ↔
              (∃ t, url = "http" +:+ t)
              ∧ GoStrings.occurrences "://www." url = 1).
Proof.
  assert (validURL defaultURL = true) as Hdefault by (by vm_compute).
  intros Hinvalid. split; [|split; [|split; [|split]]].
  - intros e. apply newKanjiKanaScraper_error.
  - intros opts tr depth Happly Hdepth.
    rewrite (newKanjiKanaScraper_applied _ _ _ _ Happly), Hdepth.
    unfold logged. rewrite Hinvalid, Hdepth. simpl.
    by destruct (loggingMode opts).
  - destruct (apply_options options (ScraperOptions None false) [])
      as [[opts tr] [e|]] eqn:Happly.
    { by rewrite !(newKanjiKanaScraper_failed _ _ _ _ _ Happly). }
    rewrite !(newKanjiKanaScraper_applied _ _ _ _ Happly).
    rewrite Hinvalid, Hdefault.
    destruct (searchDepth opts) as [depth|]; [|done]. simpl. do 2 f_equal.
    unfold routine.
    edestruct (routine_at_same_run (Z.to_nat (depth + 1)) defaultURL)
      as (_ & _ & _ & Hcount); [| |exact Hcount]; [done|]. simpl.
    unfold logged. rewrite !fetched_app.
    by destruct (negb _ && _), (negb _ && _), (loggingMode opts).
  - exact Hdefault.
  - intros url. unfold validURL.
    by rewrite andb_true_iff, GoStringsFacts.HasPrefix_iff, Z.eqb_eq,
      GoStringsFacts.Count_www.
Qed.
End scraper_claims.

Lemma crawl_needs_depth_option_witness :
  (apply_options [WithLogging] (ScraperOptions None false) []
   = (ScraperOptions None true, [LogPrintln "logging mode is set"], None)
   ∧ Forall (eq WithLogging) [WithLogging]
   ∧ (Fixture.scrape Fixture.rootURL [WithLogging]).2 = NilDereference
   ∧ fetched (Fixture.scrape Fixture.rootURL [WithLogging]).1 = []
   ∧ LogPrintln ("search depth set to " +:+ pretty defaultSearchDepth)
     ∈ (Fixture.scrape Fixture.rootURL [WithLogging]).1)
  ∧ (apply_options [WithSearchDepth 0] (ScraperOptions None false) []
     = (ScraperOptions (Some 0) false, [], None)
     ∧ Fixture.scrape Fixture.rootURL [WithSearchDepth 0]
       = let st := Fixture.crawlFrom Fixture.rootURL 0 in
         (trace st, Returned (finalize (counter st)))).
Proof.
  pose proof (@crawl_needs_depth_option Fixture.overlapKana
                Fixture.sampleNetwork Fixture.sampleHtml Fixture.inOrder
                Fixture.rootURL [WithLogging] (ScraperOptions None true)
                [LogPrintln "logging mode is set"] eq_refl)
    as (Hnil & _ & Hlogging).
  pose proof (@crawl_needs_depth_option Fixture.overlapKana
                Fixture.sampleNetwork Fixture.sampleHtml Fixture.inOrder
                Fixture.rootURL [WithSearchDepth 0] (ScraperOptions (Some 0) false)
                [] eq_refl)
    as (_ & Hcrawl & _).
  destruct (Hnil eq_refl) as (_ & Hfetched & Hlog).
  split.
  - split; [reflexivity|]. split; [by repeat constructor|].
    split; [apply Hlogging; by repeat constructor|].
    split; [exact Hfetched|]. exact (Hlog eq_refl).
  - split; [reflexivity|]. exact (Hcrawl 0 eq_refl).
Defined.

Lemma depth_is_validated_witness :
  (¬ (0 ≤ 10 < maxSearchDepth)
   ∧ WithSearchDepth 10 ∈ [WithLogging; WithSearchDepth 10]
   ∧ ∃ e, (Fixture.scrape Fixture.rootURL [WithLogging; WithSearchDepth 10]).2
          = Failed e)
  ∧ Fixture.scrape Fixture.rootURL [WithSearchDepth 10; WithLogging]
    = ([], Failed "search depth exceeds default maximum depth")
  ∧ (0 ≤ 9 < maxSearchDepth
     ∧ Forall accepted [WithSearchDepth 9; WithLogging]
     ∧ WithSearchDepth 9 (ScraperOptions None false)
       = (ScraperOptions (Some 9) false, [], None)
     ∧ (Fixture.scrape Fixture.rootURL [WithSearchDepth 9; WithLogging]).2
       ≠ Failed "search depth exceeds default maximum depth").
Proof.
  assert (¬ (0 ≤ 10 < maxSearchDepth)) as Hout by (unfold maxSearchDepth; lia).
  assert (0 ≤ 9 < maxSearchDepth) as Hin by (unfold maxSearchDepth; lia).
  assert (WithSearchDepth 10 ∈ [WithLogging; WithSearchDepth 10]) as Hmem.
  { apply elem_of_cons. right. apply elem_of_cons. by left. }
  assert (Forall accepted [WithSearchDepth 9; WithLogging]) as Hall.
  { constructor; [right; by exists 9|]. constructor; [by left|]. constructor. }
  pose proof (@depth_is_validated Fixture.overlapKana Fixture.sampleNetwork
                Fixture.sampleHtml Fixture.inOrder Fixture.rootURL 10
                [WithLogging; WithSearchDepth 10]) as (Hrej & _ & _ & _).
  pose proof (@depth_is_validated Fixture.overlapKana Fixture.sampleNetwork
                Fixture.sampleHtml Fixture.inOrder Fixture.rootURL 10
                [WithSearchDepth 9; WithLogging]) as (_ & Hmain & _ & _).
  pose proof (@depth_is_validated Fixture.overlapKana Fixture.sampleNetwork
                Fixture.sampleHtml Fixture.inOrder Fixture.rootURL 9
                [WithSearchDepth 9; WithLogging]) as (_ & _ & Hacc & Hok).
  split; [|split].
  - split; [exact Hout|]. split; [exact Hmem|].
    destruct (Hrej Hout Hmem) as (e & He & _). by exists e.
  - exact (Hmain Hout).
  - split; [exact Hin|]. split; [exact Hall|].
    split; [exact (Hacc Hin _)|]. exact (Hok Hall _).
Defined.

Lemma invalid_root_falls_back_witness :
  validURL "ftp://example.jp" = false
  ∧ apply_options [WithSearchDepth 1; WithLogging] (ScraperOptions None false) []
    = (ScraperOptions (Some 1) true, [LogPrintln "logging mode is set"], None)
  ∧ Fixture.scrape "ftp://example.jp" [WithSearchDepth 1; WithLogging]
    = (let st :=
         @routine Fixture.overlapKana Fixture.sampleNetwork Fixture.sampleHtml
           Fixture.inOrder defaultURL 1
           (Crawl emptyCounter
              [ LogPrintln "logging mode is set";
                LogPrintln ("invalid URL, setting to default URL= "
                            +:+ defaultURL);
                LogPrintln ("search depth set to " +:+ pretty 1) ]) in
       (trace st, Returned (finalize (counter st))))
  ∧ ((Fixture.scrape "ftp://example.jp" [WithSearchDepth (-1)]).2
     = Failed "search depth should be positive"
     ∧ (apply_options [WithSearchDepth (-1)] (ScraperOptions None false) []).2
       = Some "search depth should be positive").
Proof.
  split; [reflexivity|]. split; [reflexivity|].
  pose proof (@invalid_root_falls_back Fixture.overlapKana
                Fixture.sampleNetwork Fixture.sampleHtml Fixture.inOrder
                "ftp://example.jp" [WithSearchDepth 1; WithLogging] eq_refl)
    as (_ & Hfall & _).
  pose proof (@invalid_root_falls_back Fixture.overlapKana
                Fixture.sampleNetwork Fixture.sampleHtml Fixture.inOrder
                "ftp://example.jp" [WithSearchDepth (-1)] eq_refl)
    as (Herr & _).
  split.
  - exact (Hfall (ScraperOptions (Some 1) true)
                 [LogPrintln "logging mode is set"] 1 eq_refl eq_refl).
  - split; [reflexivity|]. exact (Herr _ eq_refl).
Defined.

(** * Beyond the claims *)

(** ** The counting loop over a whole text *)

Lemma occurs_cons (c k : string) (cs : list string) :
  occurs k (c :: cs) = (if bool_decide (c = k) then 1 else 0) + occurs k cs.
Proof.
  unfold occurs. rewrite filter_cons.
  case_bool_decide; case_decide; simpl; (done || lia).
Qed.

Lemma occurs_nonneg (k : string) (cs : list string) : 0 ≤ occurs k cs.
Proof. unfold occurs. lia. Qed.

Lemma occurs_length (k : string) (cs : list string) :
  occurs k cs ≤ Z.of_nat (length cs).
Proof. unfold occurs. pose proof (length_filter (λ x, x = k) cs). lia. Qed.

Lemma occurs_pos_iff (k : string) (cs : list string) : 0 < occurs k cs ↔ k ∈ cs.
Proof.
  unfold occurs. split.
  - intros Hpos. destruct (filter (λ x, x = k) cs) as [|x l] eqn:Hf; [simpl in *; lia|].
    assert (x ∈ filter (λ x, x = k) cs) as Hin by (rewrite Hf; left).
    by apply list_elem_of_filter in Hin as [-> ?].
  - intros Hin. assert (k ∈ filter (λ x, x = k) cs) as Hin'
      by by apply list_elem_of_filter.
    destruct (filter (λ x, x = k) cs); [by apply elem_of_nil in Hin'|simpl; lia].
Qed.

Lemma occurs_perm (k : string) (cs cs' : list string) :
  cs ≡ₚ cs' → occurs k cs = occurs k cs'.
Proof. unfold occurs. by intros ->. Qed.

Lemma at_key_incr (m : gmap string Z) (c k : string) :
  at_key (incr c m) k
  = if bool_decide (k = c) then GoInt.add (at_key m c) 1 else at_key m k.
Proof. unfold at_key at 1. rewrite lookup_incr. by case_bool_decide. Qed.

Lemma lookup_tally (p : string → bool) (cs : list string)
    (m : gmap string Z) (k : string) :
  tally p cs m !! k
  = if p k && (0 <? occurs k cs)
    then Some (GoInt.wrap (at_key m k + occurs k cs))
    else m !! k.
Proof.
  unfold tally. revert m. induction cs as [|c cs IH]; intros m; simpl.
  { by rewrite andb_false_r. }
  rewrite IH, occurs_cons. clear IH.
  pose proof (occurs_nonneg k cs) as Hocc.
  case_bool_decide as Hck.
  - subst c. destruct (p k); simpl; [|done].
    rewrite at_key_incr, bool_decide_eq_true_2 by done.
    rewrite lookup_incr, bool_decide_eq_true_2 by done.
    unfold GoInt.add.
    destruct (Z.ltb_spec 0 (occurs k cs)), (Z.ltb_spec 0 (1 + occurs k cs));
      try lia.
    + rewrite GoIntFacts.wrap_add_l. do 2 f_equal. lia.
    + do 2 f_equal. lia.
  - replace (0 + occurs k cs) with (occurs k cs) by lia.
    destruct (p c); [|done].
    rewrite at_key_incr, lookup_incr, !bool_decide_eq_false_2 by done. done.
Qed.

Section counting.
Context `{Kana}.

Lemma observe_all_cons c cs fc :
  observe_all (c :: cs) fc = observe_all cs (observe c fc).
Proof. reflexivity. Qed.

Lemma observe_all_kanjis cs fc :
  kanjis (observe_all cs fc) = tally IsKanji cs (kanjis fc).
Proof.
  revert fc. induction cs as [|c cs IH]; intros fc; [done|].
  rewrite observe_all_cons, IH, observe_kanjis. unfold tally. simpl.
  by destruct (IsKanji c).
Qed.

Lemma observe_all_katakanas cs fc :
  katakanas (observe_all cs fc) = tally IsKatakana cs (katakanas fc).
Proof.
  revert fc. induction cs as [|c cs IH]; intros fc; [done|].
  rewrite observe_all_cons, IH, observe_katakanas. unfold tally. simpl.
  by destruct (IsKatakana c).
Qed.

Lemma observe_all_hiraganas cs fc :
  hiraganas (observe_all cs fc) = tally IsHiragana cs (hiraganas fc).
Proof.
  revert fc. induction cs as [|c cs IH]; intros fc; [done|].
  rewrite observe_all_cons, IH, observe_hiraganas. unfold tally. simpl.
  by destruct (IsHiragana c).
Qed.

(** The number of characters of [cs] that the loop counts. *)
Lemma observe_all_total cs fc :
  let n := Z.of_nat (length (filter (λ c, classified c = true) cs)) in
  allCharacteresCount (observe_all cs fc)
  = if 0 <? n then GoInt.wrap (allCharacteresCount fc + n)
    else allCharacteresCount fc.
Proof.
  revert fc. induction cs as [|c cs IH]; intros fc; [done|].
  cbv zeta in *. rewrite observe_all_cons, IH, observe_total, filter_cons.
  clear IH.
  change (IsKanji c || IsKatakana c || IsHiragana c) with (classified c).
  case_decide as Hc.
  - rewrite Hc. simpl length.
    set (n := length _). unfold GoInt.add.
    destruct (Z.ltb_spec 0 (Z.of_nat n)), (Z.ltb_spec 0 (Z.of_nat (S n)));
      try lia.
    + rewrite GoIntFacts.wrap_add_l. f_equal. lia.
    + f_equal. lia.
  - by destruct (classified c).
Qed.

Lemma observe_derived c fc :
  uniqueCount (observe c fc) = uniqueCount fc
  ∧ kanjiUniqueCount (observe c fc) = kanjiUniqueCount fc
  ∧ kanaUniqueCount (observe c fc) = kanaUniqueCount fc
  ∧ hiraganaUniqueCount (observe c fc) = hiraganaUniqueCount fc
  ∧ katakanaUniqueCount (observe c fc) = katakanaUniqueCount fc.
Proof.
  unfold observe.
  by destruct (IsKanji c), (IsKatakana c), (IsHiragana c).
Qed.

Lemma observe_all_derived cs fc :
  uniqueCount (observe_all cs fc) = uniqueCount fc
  ∧ kanjiUniqueCount (observe_all cs fc) = kanjiUniqueCount fc
  ∧ kanaUniqueCount (observe_all cs fc) = kanaUniqueCount fc
  ∧ hiraganaUniqueCount (observe_all cs fc) = hiraganaUniqueCount fc
  ∧ katakanaUniqueCount (observe_all cs fc) = katakanaUniqueCount fc.
Proof.
  revert fc. induction cs as [|c cs IH]; intros fc; [done|].
  rewrite observe_all_cons.
  destruct (IH (observe c fc)) as (-> & -> & -> & -> & ->).
  apply observe_derived.
Qed.

Lemma counter_ext (fc fc' : kanjiKanaFrequencyCounter) :
  allCharacteresCount fc = allCharacteresCount fc' →
  uniqueCount fc = uniqueCount fc' →
  kanjiUniqueCount fc = kanjiUniqueCount fc' →
  kanaUniqueCount fc = kanaUniqueCount fc' →
  hiraganaUniqueCount fc = hiraganaUniqueCount fc' →
  katakanaUniqueCount fc = katakanaUniqueCount fc' →
  kanjis fc = kanjis fc' → hiraganas fc = hiraganas fc' →
  katakanas fc = katakanas fc' →
  fc = fc'.
Proof. destruct fc, fc'; simpl. by intros -> -> -> -> -> -> -> -> ->. Qed.

Lemma tally_perm (p : string → bool) cs cs' (m : gmap string Z) :
  cs ≡ₚ cs' → tally p cs m = tally p cs' m.
Proof.
  intros Hperm. apply map_eq. intros k.
  by rewrite !lookup_tally, (occurs_perm k cs cs').
Qed.

Lemma observe_all_perm cs cs' fc :
  cs ≡ₚ cs' → observe_all cs fc = observe_all cs' fc.
Proof.
  intros Hperm.
  destruct (observe_all_derived cs fc) as (? & ? & ? & ? & ?).
  destruct (observe_all_derived cs' fc) as (? & ? & ? & ? & ?).
  apply counter_ext; try congruence.
  - rewrite !observe_all_total. cbv zeta.
    assert (length (filter (λ c, classified c = true) cs)
            = length (filter (λ c, classified c = true) cs')) as ->; [|done].
    by rewrite Hperm.
  - rewrite !observe_all_kanjis. by apply tally_perm.
  - rewrite !observe_all_hiraganas. by apply tally_perm.
  - rewrite !observe_all_katakanas. by apply tally_perm.
Qed.

Lemma observe_all_app cs1 cs2 fc :
  observe_all (cs1 ++ cs2) fc = observe_all cs2 (observe_all cs1 fc).
Proof. apply foldl_app. Qed.

Lemma tally_keys (p : string → bool) cs (m : gmap string Z) k :
  is_Some (tally p cs m !! k) ↔ is_Some (m !! k) ∨ (p k = true ∧ k ∈ cs).
Proof.
  rewrite lookup_tally, <- occurs_pos_iff.
  destruct (p k); simpl.
  - destruct (Z.ltb_spec 0 (occurs k cs)).
    + split; [eauto|]. intros _. by eexists.
    + split; [by left|]. intros [?|[_ ?]]; [done|lia].
  - split; [by left|]. by intros [?|[? _]].
Qed.

Lemma observe_all_keys_in_class cs fc :
  keys_in_class fc → keys_in_class (observe_all cs fc).
Proof.
  intros (Hkanji & Hkata & Hhira). unfold keys_in_class.
  rewrite observe_all_kanjis, observe_all_katakanas, observe_all_hiraganas.
  repeat split; intros k [?|[? _]]%tally_keys; auto.
Qed.

Lemma keys_in_class_empty : keys_in_class emptyCounter.
Proof. repeat split; intros k [? Hk]; simpl in Hk; by rewrite lookup_empty in Hk. Qed.
End counting.

(** ** The crawl as a whole *)

Lemma string_app_assoc (s t u : string) : (s +:+ t) +:+ u = s +:+ t +:+ u.
Proof.
  induction s as [|a s IH]; [done|].
  by rewrite !GoStringsFacts.app_cons, IH.
Qed.

Section crawl_facts.
Context `{Kana, Network, Html}.

Lemma foldl_count_page us fc :
  foldl count_page fc us = observe_all (us ≫= page_chars) fc.
Proof.
  revert fc. induction us as [|u us IH]; intros fc; [done|].
  change (foldl count_page fc (u :: us))
    with (foldl count_page (count_page fc u) us).
  rewrite IH, bind_cons, observe_all_app. f_equal.
  unfold count_page, page_chars. by destruct (Get u).
Qed.

Lemma runs_as_fold (step : string → crawl → crawl)
    (expected : string → list string) (children : list string) :
  (∀ c, runs_as (step c) (expected c)) →
  runs_as (λ st, foldl (λ st c, step c st) st children) (children ≫= expected).
Proof.
  intros Hstep. induction children as [|c children IH]; intros st; simpl.
  - exists []. by rewrite app_nil_r.
  - destruct (Hstep c st) as (us1 & Htr1 & Hfc1 & Hus1).
    destruct (IH (step c st)) as (us2 & Htr2 & Hfc2 & Hus2).
    exists (us1 ++ us2). split; [|split].
    + by rewrite Htr2, Htr1, events_for_app, app_assoc.
    + by rewrite Hfc2, Hfc1, foldl_app.
    + by rewrite Hus1, Hus2.
Qed.

(** Reaching a page takes a path of links; each link passes the filter. *)
Lemma reach_shape k url u :
  reach k url u →
  (k = O ∧ u = url) ∨ (k ≠ O ∧ ∃ t, u = url +:+ "/" +:+ t +:+ ".html").
Proof.
  induction 1 as [url|k url text nextURL u Hget Hchild Hreach IH];
    [by left|right].
  split; [done|].
  apply elem_of_childLinks in Hchild as (val & _ & Hcheck & ->).
  apply check_iff in Hcheck as (_ & _ & _ & _ & t & ->).
  destruct IH as [[_ ->]|[_ [t' ->]]].
  - by exists t.
  - exists (t +:+ ".html" +:+ "/" +:+ t'). by rewrite !string_app_assoc.
Qed.

Lemma routine_at_visits `{MapRange} n url :
  runs_as (routine_at n url) (visits n url).
Proof.
  revert url. induction n as [|n IH]; intros url st.
  { exists []. simpl. by rewrite app_nil_r. }
  simpl. destruct (Get url) as [err|err|text] eqn:Hget.
  - exists [url]. unfold events_for, emit, report, count_page. simpl.
    rewrite Hget. simpl. by rewrite <- app_assoc.
  - exists [url]. unfold events_for, emit, report, count_page. simpl.
    rewrite Hget. simpl. by rewrite <- app_assoc.
  - set (st1 := Crawl _ _). set (children := range_order _ _).
    destruct (runs_as_fold (routine_at n) (visits n) children IH st1)
      as (us & Htr & Hfc & Hus).
    exists (url :: us). split; [|split].
    + rewrite Htr, events_for_cons. unfold st1, report. rewrite Hget.
      simpl. by rewrite <- app_assoc.
    + rewrite Hfc. simpl. f_equal. unfold count_page. by rewrite Hget.
    + constructor. rewrite Hus. unfold children.
      by rewrite range_order_perm.
Qed.

Lemma routine_visits `{MapRange} url layer st :
  fetches url layer st ≡ₚ visits (Z.to_nat (layer + 1)) url
  ∧ counter (routine url layer st)
    = observe_all (visits (Z.to_nat (layer + 1)) url ≫= page_chars)
                  (counter st).
Proof.
  destruct (routine_at_visits (Z.to_nat (layer + 1)) url st)
    as (us & Htr & Hfc & Hus).
  unfold fetches, events_of, routine.
  rewrite Htr, drop_app_length, fetched_events_for, Hfc, foldl_count_page.
  split; [done|]. apply observe_all_perm. by rewrite Hus.
Qed.

Lemma routine_keys_in_class `{MapRange} url layer st :
  keys_in_class (counter st) → keys_in_class (counter (routine url layer st)).
Proof.
  intros Hkeys. destruct (routine_visits url layer st) as [_ ->].
  by apply observe_all_keys_in_class.
Qed.

Lemma routine_derived `{MapRange} url layer st :
  uniqueCount (counter (routine url layer st)) = uniqueCount (counter st)
  ∧ kanjiUniqueCount (counter (routine url layer st))
    = kanjiUniqueCount (counter st)
  ∧ kanaUniqueCount (counter (routine url layer st))
    = kanaUniqueCount (counter st)
  ∧ hiraganaUniqueCount (counter (routine url layer st))
    = hiraganaUniqueCount (counter st)
  ∧ katakanaUniqueCount (counter (routine url layer st))
    = katakanaUniqueCount (counter st).
Proof.
  destruct (routine_visits url layer st) as [_ ->].
  apply observe_all_derived.
Qed.
End crawl_facts.

Section counting_extras.
Context `{Kana}.

(** X1.  After the counting loop has run over the characters [cs], the
    entry of a character [k] in the map of a class whose predicate holds
    of [k] is its old value (zero if absent) plus the number of times [k]
    occurs in [cs], in Go's [int]; every other entry, and every entry of
    a character that does not occur, is as before.  The total has grown
    by the number of characters of [cs] that match at least one class. *)
Theorem observe_all_counts cs fc k :
  kanjis (observe_all cs fc) !! k
  = (if IsKanji k && (0 <? occurs k cs)
     then Some (GoInt.wrap (at_key (kanjis fc) k + occurs k cs))
     else kanjis fc !! k)
  ∧ katakanas (observe_all cs fc) !! k
    = (if IsKatakana k && (0 <? occurs k cs)
       then Some (GoInt.wrap (at_key (katakanas fc) k + occurs k cs))
       else katakanas fc !! k)
  ∧ hiraganas (observe_all cs fc) !! k
    = (if IsHiragana k && (0 <? occurs k cs)
       then Some (GoInt.wrap (at_key (hiraganas fc) k + occurs k cs))
       else hiraganas fc !! k)
  ∧ allCharacteresCount (observe_all cs fc)
    = (let n := Z.of_nat (length (filter (λ c, classified c = true) cs)) in
       if 0 <? n then GoInt.wrap (allCharacteresCount fc + n)
       else allCharacteresCount fc).
Proof.
  rewrite observe_all_kanjis, observe_all_katakanas, observe_all_hiraganas.
  rewrite !lookup_tally. repeat split. apply observe_all_total.
Qed.

Lemma observe_all_from_empty cs k :
  Z.of_nat (length cs) ≤ GoInt.maxInt →
  kanjis (observe_all cs emptyCounter) !! k
  = (if IsKanji k && bool_decide (k ∈ cs) then Some (occurs k cs) else None)
  ∧ katakanas (observe_all cs emptyCounter) !! k
    = (if IsKatakana k && bool_decide (k ∈ cs) then Some (occurs k cs) else None)
  ∧ hiraganas (observe_all cs emptyCounter) !! k
    = (if IsHiragana k && bool_decide (k ∈ cs) then Some (occurs k cs) else None)
  ∧ allCharacteresCount (observe_all cs emptyCounter)
    = Z.of_nat (length (filter (λ c, classified c = true) cs)).
Proof.
  intros Hlen.
  assert (∀ p, tally p cs ∅ !! k
               = if p k && bool_decide (k ∈ cs) then Some (occurs k cs) else None)
    as Htally.
  { intros p. rewrite lookup_tally, lookup_empty. unfold at_key.
    rewrite lookup_empty. simpl.
    pose proof (occurs_pos_iff k cs) as Hpos.
    pose proof (occurs_length k cs) as Hle.
    destruct (p k); simpl; [|done].
    destruct (decide (k ∈ cs)) as [Hin|Hnin].
    - rewrite bool_decide_eq_true_2 by done. apply Hpos in Hin.
      destruct (Z.ltb_spec 0 (occurs k cs)); [|lia].
      f_equal. apply GoIntFacts.wrap_small.
      unfold GoInt.minInt, GoInt.maxInt, GoInt.width in *. lia.
    - rewrite bool_decide_eq_false_2 by done.
      destruct (Z.ltb_spec 0 (occurs k cs)); [tauto|done]. }
  rewrite observe_all_kanjis, observe_all_katakanas, observe_all_hiraganas.
  simpl. rewrite !Htally. repeat split.
  rewrite observe_all_total. cbv zeta. simpl.
  pose proof (length_filter (λ c, classified c = true) cs) as Hle.
  destruct (Z.ltb_spec 0 (Z.of_nat (length (filter (λ c, classified c = true) cs))));
    [|lia].
  apply GoIntFacts.wrap_small.
  unfold GoInt.minInt, GoInt.maxInt, GoInt.width in *. lia.
Qed.


(** X2.  Started on the empty counter with a text of fewer than 2^63
    characters, the loop builds the frequency table of the text: a map has
    an entry for [k] exactly when [k] is of its class and occurs in the
    text, the entry is the number of occurrences, and the total is the
    number of characters that match at least one class. *)
Theorem observe_all_frequencies cs k :
  Z.of_nat (length cs) ≤ GoInt.maxInt →
  kanjis (observe_all cs emptyCounter) !! k
  = (if IsKanji k && bool_decide (k ∈ cs) then Some (occurs k cs) else None)
  ∧ katakanas (observe_all cs emptyCounter) !! k
    = (if IsKatakana k && bool_decide (k ∈ cs) then Some (occurs k cs) else None)
  ∧ hiraganas (observe_all cs emptyCounter) !! k
    = (if IsHiragana k && bool_decide (k ∈ cs) then Some (occurs k cs) else None)
  ∧ allCharacteresCount (observe_all cs emptyCounter)
    = Z.of_nat (length (filter (λ c, classified c = true) cs)).
Proof. apply observe_all_from_empty. Qed.

(** X3.  The counter reached does not depend on the order of the
    characters: two texts with the same characters, each as often, give
    the same counter. *)
Theorem observe_all_order_irrelevant cs cs' fc :
  cs ≡ₚ cs' → observe_all cs fc = observe_all cs' fc.
Proof. apply observe_all_perm. Qed.
End counting_extras.

Lemma observe_all_frequencies_witness :
  Z.of_nat (length ["漢"; "字"; "漢"]) ≤ GoInt.maxInt
  ∧ kanjis (@observe_all Fixture.overlapKana ["漢"; "字"; "漢"] emptyCounter)
      !! "漢"
    = Some 2.
Proof.
  assert (Z.of_nat (length ["漢"; "字"; "漢"]) ≤ GoInt.maxInt) as Hlen
    by (by vm_compute).
  split; [exact Hlen|].
  pose proof (@observe_all_frequencies Fixture.overlapKana
                ["漢"; "字"; "漢"] "漢" Hlen) as [Hkanji _].
  exact Hkanji.
Defined.

Lemma observe_all_order_irrelevant_witness :
  ["漢"; "字"] ≡ₚ ["字"; "漢"]
  ∧ @observe_all Fixture.overlapKana ["漢"; "字"] emptyCounter
    = @observe_all Fixture.overlapKana ["字"; "漢"] emptyCounter.
Proof.
  split; [apply perm_swap|].
  apply (@observe_all_order_irrelevant Fixture.overlapKana), perm_swap.
Defined.

Section crawl_extras.
Context `{Kana, Network, Html}.

(** X4.  Whatever order the [range] loops over the links take, a crawl
    fetches the same URLs, each as often: the root, then for every link
    of a page that could be read the fetches of the crawl from that link
    with the budget lowered by one.  The counter it leaves is the one the
    counting loop gives on the characters of these pages. *)
Theorem crawl_fetches_and_counts `{MapRange} url layer st :
  fetches url layer st ≡ₚ visits (Z.to_nat (layer + 1)) url
  ∧ counter (routine url layer st)
    = observe_all (visits (Z.to_nat (layer + 1)) url ≫= page_chars)
                  (counter st).
Proof. apply routine_visits. Qed.

(** X5.  Two crawls from the same root with the same budget, started
    with the same counter, end with the same counter and fetch the same
    URLs equally often, even when their [range] loops enumerate the links
    in different orders and their traces differ. *)
Theorem crawl_order_irrelevant (order1 order2 : MapRange) url layer st st' :
  counter st = counter st' →
  counter (@routine _ _ _ order1 url layer st)
  = counter (@routine _ _ _ order2 url layer st')
  ∧ @fetches _ _ _ order1 url layer st ≡ₚ @fetches _ _ _ order2 url layer st'.
Proof.
  intros Hfc.
  destruct (@routine_visits _ _ _ order1 url layer st) as [Hus1 ->].
  destruct (@routine_visits _ _ _ order2 url layer st') as [Hus2 ->].
  split; [by rewrite Hfc|]. by rewrite Hus1, Hus2.
Qed.

(** X6.  A crawl never fetches anything but its root and URLs made of
    the root, a slash, and a path that ends in [.html]. *)
Theorem fetched_urls_shape `{MapRange} url layer st u :
  u ∈ fetches url layer st →
  u = url ∨ ∃ t, u = url +:+ "/" +:+ t +:+ ".html".
Proof.
  intros Hin. apply (routine_run url layer st) in Hin as (k & _ & Hreach).
  apply reach_shape in Hreach as [[_ ->]|[_ ?]]; eauto.
Qed.

(** X7.  If every key of each map of the counter is of the class of the
    map, this is still so after a crawl. *)
Theorem crawl_keeps_keys_in_class `{MapRange} url layer st :
  keys_in_class (counter st) →
  keys_in_class (counter (routine url layer st)).
Proof. apply routine_keys_in_class. Qed.
End crawl_extras.

Lemma crawl_order_irrelevant_witness :
  counter (Crawl emptyCounter []) = counter (Crawl emptyCounter [])
  ∧ counter (@routine Fixture.overlapKana Fixture.sampleNetwork
               Fixture.sampleHtml Fixture.inOrder Fixture.rootURL 2
               (Crawl emptyCounter []))
    = counter (@routine Fixture.overlapKana Fixture.sampleNetwork
                 Fixture.sampleHtml Fixture.backwards Fixture.rootURL 2
                 (Crawl emptyCounter [])).
Proof.
  split; [reflexivity|].
  apply (@crawl_order_irrelevant Fixture.overlapKana Fixture.sampleNetwork
           Fixture.sampleHtml Fixture.inOrder Fixture.backwards
           Fixture.rootURL 2 (Crawl emptyCounter []) (Crawl emptyCounter [])).
  reflexivity.
Defined.

Lemma fetched_urls_shape_witness :
  "http://www.example.jp/a.html/c.html"
  ∈ @fetches Fixture.overlapKana Fixture.sampleNetwork Fixture.sampleHtml
      Fixture.inOrder Fixture.rootURL 2 (Crawl emptyCounter [])
  ∧ ("http://www.example.jp/a.html/c.html" = Fixture.rootURL
     ∨ ∃ t, "http://www.example.jp/a.html/c.html"
            = Fixture.rootURL +:+ "/" +:+ t +:+ ".html").
Proof.
  assert ("http://www.example.jp/a.html/c.html"
          ∈ @fetches Fixture.overlapKana Fixture.sampleNetwork
              Fixture.sampleHtml Fixture.inOrder Fixture.rootURL 2
              (Crawl emptyCounter [])) as Hin.
  { apply (bool_decide_unpack _). by vm_compute. }
  split; [exact Hin|].
  exact (@fetched_urls_shape Fixture.overlapKana Fixture.sampleNetwork
           Fixture.sampleHtml Fixture.inOrder Fixture.rootURL 2
           (Crawl emptyCounter []) _ Hin).
Defined.

Lemma crawl_keeps_keys_in_class_witness :
  @keys_in_class Fixture.overlapKana (counter (Crawl emptyCounter []))
  ∧ @keys_in_class Fixture.overlapKana
      (counter (Fixture.crawlFrom Fixture.rootURL 2)).
Proof.
  split; [apply keys_in_class_empty|].
  apply (@crawl_keeps_keys_in_class Fixture.overlapKana Fixture.sampleNetwork
           Fixture.sampleHtml Fixture.inOrder Fixture.rootURL 2
           (Crawl emptyCounter [])).
  apply keys_in_class_empty.
Defined.

(** ** The constructor as a whole *)

Lemma apply_options_app_ok pre post opts tr opts' tr' :
  apply_options pre opts tr = (opts', tr', None) →
  apply_options (pre ++ post) opts tr = apply_options post opts' tr'.
Proof.
  revert opts tr. induction pre as [|opt pre IH]; intros opts tr; simpl.
  - by intros [= -> ->].
  - destruct (opt opts) as [[o lines] [e|]]; [done|]. apply IH.
Qed.

Lemma apply_options_app_error pre post opts tr opts' tr' e :
  apply_options pre opts tr = (opts', tr', Some e) →
  apply_options (pre ++ post) opts tr = (opts', tr', Some e).
Proof.
  revert opts tr. induction pre as [|opt pre IH]; intros opts tr; simpl.
  - done.
  - destruct (opt opts) as [[o lines] [e'|]]; [done|]. apply IH.
Qed.

Lemma size_union_bounds (X Y : gset string) :
  (size X ≤ size (X ∪ Y) ∧ size Y ≤ size (X ∪ Y)
   ∧ size (X ∪ Y) ≤ size X + size Y)%nat.
Proof.
  split; [apply subseteq_size, union_subseteq_l|].
  split; [apply subseteq_size, union_subseteq_r|].
  rewrite size_union_alt.
  assert (size (Y ∖ X) ≤ size Y)%nat; [|lia].
  apply subseteq_size. by intros x [? _]%elem_of_difference.
Qed.

Section constructor_facts.
Context `{Kana, Network, Html, MapRange}.

Lemma newKanjiKanaScraper_returned rootURL options fc :
  (newKanjiKanaScraper rootURL options).2 = Returned fc →
  ∃ opts tr depth,
    apply_options options (ScraperOptions None false) [] = (opts, tr, None)
    ∧ searchDepth opts = Some depth
    ∧ fc = finalize
             (counter (routine (if validURL rootURL then rootURL else defaultURL)
                         depth (Crawl emptyCounter (tr ++ logged rootURL opts)))).
Proof.
  destruct (apply_options options (ScraperOptions None false) [])
    as [[opts tr] [e|]] eqn:Happly.
  - by rewrite (newKanjiKanaScraper_failed _ _ _ _ _ Happly).
  - rewrite (newKanjiKanaScraper_applied _ _ _ _ Happly).
    destruct (searchDepth opts) as [depth|] eqn:Hdepth; [|done].
    simpl. intros [= <-]. by exists opts, tr, depth.
Qed.

Lemma finalize_keys_in_class fc : keys_in_class fc → keys_in_class (finalize fc).
Proof. by rewrite finalize_fields. Qed.
End constructor_facts.

Section constructor_extras.
Context `{Kana, Network, Html}.

(** X8.  In a counter the constructor returns, each per-class unique
    count is the size of its map, [uniqueCount] is their sum in Go's
    [int], [kanaUniqueCount] is the number of characters that are a key of
    the katakana or of the hiragana map, so it lies between the larger of
    the two unique counts and their sum, and every key of a map is of the
    class of the map. *)
Theorem returned_counter_fields `{MapRange} rootURL options fc :
  (newKanjiKanaScraper rootURL options).2 = Returned fc →
  kanjiUniqueCount fc = GoInt.len (kanjis fc)
  ∧ katakanaUniqueCount fc = GoInt.len (katakanas fc)
  ∧ hiraganaUniqueCount fc = GoInt.len (hiraganas fc)
  ∧ uniqueCount fc
    = GoInt.wrap (kanjiUniqueCount fc + katakanaUniqueCount fc
                  + hiraganaUniqueCount fc)
  ∧ kanaUniqueCount fc
    = Z.of_nat (size (dom (katakanas fc) ∪ dom (hiraganas fc)))
  ∧ Z.max (katakanaUniqueCount fc) (hiraganaUniqueCount fc)
    ≤ kanaUniqueCount fc
    ≤ katakanaUniqueCount fc + hiraganaUniqueCount fc
  ∧ keys_in_class fc.
Proof.
  intros (opts & tr & depth & _ & _ & ->)%newKanjiKanaScraper_returned.
  set (st := routine _ _ _).
  assert (keys_in_class (finalize (counter st))) as Hkeys.
  { apply finalize_keys_in_class, routine_keys_in_class, keys_in_class_empty. }
  assert (uniqueCount (counter st) = 0) as Hzero.
  { unfold st. by destruct (routine_derived
      (if validURL rootURL then rootURL else defaultURL) depth
      (Crawl emptyCounter (tr ++ logged rootURL opts))) as [-> _]. }
  revert Hkeys. rewrite finalize_fields. simpl. rewrite Hzero. intros Hkeys.
  do 5 (split; [done|]). split; [split|exact Hkeys].
  - unfold GoInt.len.
    pose proof (size_union_bounds (dom (katakanas (counter st)))
                  (dom (hiraganas (counter st)))) as [Hle1 [Hle2 _]].
    rewrite !size_dom in Hle1, Hle2. lia.
  - unfold GoInt.len.
    pose proof (size_union_bounds (dom (katakanas (counter st)))
                  (dom (hiraganas (counter st)))) as [_ [_ Hle3]].
    rewrite !size_dom in Hle3. lia.
Qed.

(** X9.  The outcome of the constructor, and with it every count it
    returns, does not depend on the order in which the [range] loops over
    the links of a page run. *)
Theorem returned_counter_order_irrelevant (order1 order2 : MapRange)
    rootURL options :
  (@newKanjiKanaScraper _ _ _ order1 rootURL options).2
  = (@newKanjiKanaScraper _ _ _ order2 rootURL options).2.
Proof.
  destruct (apply_options options (ScraperOptions None false) [])
    as [[opts tr] [e|]] eqn:Happly.
  { by rewrite !(newKanjiKanaScraper_failed _ _ _ _ _ Happly). }
  rewrite !(newKanjiKanaScraper_applied _ _ _ _ Happly).
  destruct (searchDepth opts) as [depth|]; [|done]. simpl. do 2 f_equal.
  destruct (@routine_visits _ _ _ order1
              (if validURL rootURL then rootURL else defaultURL) depth
              (Crawl emptyCounter (tr ++ logged rootURL opts))) as [_ ->].
  by destruct (@routine_visits _ _ _ order2
              (if validURL rootURL then rootURL else defaultURL) depth
              (Crawl emptyCounter (tr ++ logged rootURL opts))) as [_ ->].
Qed.

End constructor_extras.

(** X11.  The options are applied from left to right.  When the first
    ones raise no error, the rest is applied to the options and the log
    they leave; when one of them raises an error, the loop ends there and
    none of those after it is called. *)
Theorem apply_options_in_sequence pre post opts tr opts' tr' :
  (apply_options pre opts tr = (opts', tr', None) →
   apply_options (pre ++ post) opts tr = apply_options post opts' tr')
  ∧ (∀ e, apply_options pre opts tr = (opts', tr', Some e) →
          apply_options (pre ++ post) opts tr = (opts', tr', Some e)).
Proof.
  split; [apply apply_options_app_ok|].
  intros e. apply apply_options_app_error.
Qed.

(** X12.  Of several [WithSearchDepth] options the last one decides: if
    the options before it raise no error and its depth is within the
    range, the depth stored is its own, and the logging mode is the one
    the earlier options left. *)
Theorem last_depth_option_wins options depth opts tr opts' tr' :
  apply_options options opts tr = (opts', tr', None) →
  0 ≤ depth < maxSearchDepth →
  apply_options (options ++ [WithSearchDepth depth]) opts tr
  = (ScraperOptions (Some depth) (loggingMode opts'), tr', None).
Proof.
  intros Happly Hin. rewrite (apply_options_app_ok _ _ _ _ _ _ Happly).
  simpl. rewrite WithSearchDepth_accepts by done. simpl.
  by rewrite app_nil_r.
Qed.

Lemma returned_counter_fields_witness :
  ∃ fc,
    (Fixture.scrape Fixture.rootURL [WithSearchDepth 1; WithLogging]).2
    = Returned fc
    ∧ uniqueCount fc
      = GoInt.wrap (kanjiUniqueCount fc + katakanaUniqueCount fc
                    + hiraganaUniqueCount fc).
Proof.
  pose (fc := finalize (counter
                (@routine Fixture.overlapKana Fixture.sampleNetwork
                   Fixture.sampleHtml Fixture.inOrder Fixture.rootURL 1
                   (Crawl emptyCounter
                      [LogPrintln "logging mode is set";
                       LogPrintln "search depth set to 1"])))).
  assert ((Fixture.scrape Fixture.rootURL [WithSearchDepth 1; WithLogging]).2
          = Returned fc) as Hret by (by vm_compute).
  exists fc. split; [exact Hret|].
  apply (@returned_counter_fields Fixture.overlapKana Fixture.sampleNetwork
           Fixture.sampleHtml Fixture.inOrder Fixture.rootURL
           [WithSearchDepth 1; WithLogging] fc Hret).
Defined.



Lemma apply_options_in_sequence_witness :
  (apply_options [WithSearchDepth 1] (ScraperOptions None false) []
   = (ScraperOptions (Some 1) false, [], None)
   ∧ apply_options ([WithSearchDepth 1] ++ [WithLogging])
       (ScraperOptions None false) []
     = apply_options [WithLogging] (ScraperOptions (Some 1) false) [])
  ∧ (apply_options [WithSearchDepth (-1)] (ScraperOptions None false) []
     = (ScraperOptions None false, [], Some "search depth should be positive")
     ∧ apply_options ([WithSearchDepth (-1)] ++ [WithLogging])
         (ScraperOptions None false) []
       = (ScraperOptions None false, [],
          Some "search depth should be positive")).
Proof.
  split.
  - split; [reflexivity|].
    by apply (apply_options_in_sequence [WithSearchDepth 1] [WithLogging]
                (ScraperOptions None false) []
                (ScraperOptions (Some 1) false) []).
  - split; [reflexivity|].
    by apply (apply_options_in_sequence [WithSearchDepth (-1)] [WithLogging]
                (ScraperOptions None false) []
                (ScraperOptions None false) []).
Defined.

Lemma last_depth_option_wins_witness :
  apply_options [WithSearchDepth 1; WithLogging] (ScraperOptions None false) []
  = (ScraperOptions (Some 1) true, [LogPrintln "logging mode is set"], None)
  ∧ 0 ≤ 2 < maxSearchDepth
  ∧ apply_options ([WithSearchDepth 1; WithLogging] ++ [WithSearchDepth 2])
      (ScraperOptions None false) []
    = (ScraperOptions (Some 2) true, [LogPrintln "logging mode is set"], None).
Proof.
  assert (0 ≤ 2 < maxSearchDepth) as Hin by (unfold maxSearchDepth; lia).
  split; [reflexivity|]. split; [exact Hin|].
  exact (last_depth_option_wins [WithSearchDepth 1; WithLogging] 2
           (ScraperOptions None false) [] (ScraperOptions (Some 1) true)
           [LogPrintln "logging mode is set"] eq_refl Hin).
Defined.

(** ** More on the ranking *)

Lemma sorted_desc_lookup {A} (f : A → Z) (l : list A) (i j : nat) (a b : A) :
  Sorted (λ x y, f y ≤ f x) l →
  (i ≤ j)%nat → l !! i = Some a → l !! j = Some b → f b ≤ f a.
Proof.
  intros Hsorted. apply Sorted_StronglySorted in Hsorted.
  2: { intros x y z. lia. }
  revert i j. induction Hsorted as [|x l _ IH Hall]; intros i j Hij; [done|].
  destruct i as [|i], j as [|j]; simpl; try lia.
  - intros [= ->] [= ->]. lia.
  - intros [= ->] Hb. rewrite Forall_forall in Hall.
    apply Hall. by eapply list_elem_of_lookup_2.
  - apply IH. lia.
Qed.

Lemma filter_at_most_one {A} (P : A → Prop) `{∀ x, Decision (P x)}
    (l l' : list A) :
  NoDup l → l ≡ₚ l' →
  (∀ x y, x ∈ l → y ∈ l → P x → P y → x = y) →
  filter P l = filter P l'.
Proof.
  intros Hnd Hperm Hone.
  assert (filter P l ≡ₚ filter P l') as Hf by (by rewrite Hperm).
  pose proof (NoDup_filter P l Hnd) as Hndf.
  destruct (filter P l) as [|x [|y r]] eqn:Hfl.
  - by apply Permutation_nil_l in Hf.
  - by apply Permutation_singleton_l in Hf.
  - assert (x ∈ filter P l ∧ y ∈ filter P l) as [Hx Hy].
    { rewrite Hfl. split; [left|right; left]. }
    apply list_elem_of_filter in Hx as [? ?], Hy as [? ?].
    assert (x = y) as -> by auto.
    apply NoDup_cons in Hndf as [Hnotin _]. destruct Hnotin. left.
Qed.

Section ranking_extras.
Implicit Types (m : gmap string Z) (ks : list string).

Lemma rank_sorted m ks :
  range_of m ks →
  Sorted (λ x y, at_key m y ≤ at_key m x) (getMostCommonCharactersList m ks).
Proof.
  intros Hks. rewrite rank_unfold by done.
  apply (GoSortFacts.SliceStable_sorted (at_key m)).
Qed.

Lemma rank_range_of m ks :
  range_of m ks → range_of m (getMostCommonCharactersList m ks).
Proof.
  intros Hks. rewrite rank_unfold by done. unfold range_of in *.
  by rewrite (GoSortFacts.SliceStable_perm (at_key m)).
Qed.

(** X13.  In the list returned, no character has a smaller count than
    one that comes after it; so its first [n] elements are [n] most
    common characters: none of the keys left out has a larger count than
    one of them. *)
Theorem rank_most_common_first m ks :
  range_of m ks →
  let out := getMostCommonCharactersList m ks in
  (∀ i j a b, (i ≤ j)%nat → out !! i = Some a → out !! j = Some b →
              at_key m b ≤ at_key m a)
  ∧ (∀ n c k, c ∈ take n out → is_Some (m !! k) → k ∉ take n out →
              at_key m k ≤ at_key m c).
Proof.
  intros Hks out. pose proof (rank_sorted m ks Hks) as Hsorted.
  pose proof (rank_range_of m ks Hks) as Hout. fold out in Hsorted, Hout.
  split.
  - intros i j a b. by apply sorted_desc_lookup.
  - intros n c k Hc Hk Hnk.
    apply (range_of_elem m out k Hout) in Hk.
    rewrite <- (take_drop n out) in Hk.
    apply elem_of_app in Hk as [?|Hk]; [done|].
    apply list_elem_of_lookup in Hc as [i Hi], Hk as [j Hj].
    pose proof (lookup_lt_Some _ _ _ Hi) as Hlt. rewrite length_take in Hlt.
    rewrite lookup_take_lt in Hi by lia. rewrite lookup_drop in Hj.
    apply (sorted_desc_lookup (at_key m) out i (n + j) c k); (done || lia).
Qed.

(** X14.  When no two keys of the map have the same count, the list
    returned is the same whatever the order in which the [range] loop
    enumerates the map. *)
Theorem rank_of_distinct_counts m ks ks' :
  (∀ k1 k2, is_Some (m !! k1) → is_Some (m !! k2) →
            at_key m k1 = at_key m k2 → k1 = k2) →
  range_of m ks → range_of m ks' →
  getMostCommonCharactersList m ks = getMostCommonCharactersList m ks'.
Proof.
  intros Hinj Hks Hks'. rewrite !rank_unfold by done.
  apply (GoSortFacts.sorted_by_ties_unique (at_key m)).
  - apply (GoSortFacts.SliceStable_sorted (at_key m)).
  - apply (GoSortFacts.SliceStable_sorted (at_key m)).
  - intros n. rewrite !(GoSortFacts.SliceStable_stable (at_key m)).
    apply filter_at_most_one.
    + by eapply range_of_NoDup.
    + unfold range_of in *. by rewrite Hks, Hks'.
    + intros x y Hx%(range_of_elem m ks x Hks) Hy%(range_of_elem m ks y Hks).
      intros Hxn Hyn. apply Hinj; congruence.
Qed.
End ranking_extras.

Lemma range_of_ranked_forward : range_of Fixture.ranked ["漢"; "字"; "本"].
Proof. unfold range_of. apply (bool_decide_unpack _). by vm_compute. Qed.

Lemma range_of_ranked_backward : range_of Fixture.ranked ["本"; "字"; "漢"].
Proof. unfold range_of. apply (bool_decide_unpack _). by vm_compute. Qed.

Lemma ranked_distinct_counts k1 k2 :
  is_Some (Fixture.ranked !! k1) → is_Some (Fixture.ranked !! k2) →
  at_key Fixture.ranked k1 = at_key Fixture.ranked k2 → k1 = k2.
Proof.
  intros H1%(range_of_elem _ _ _ range_of_ranked_forward)
         H2%(range_of_elem _ _ _ range_of_ranked_forward).
  rewrite !elem_of_cons, elem_of_nil in H1, H2.
  destruct H1 as [->|[->|[->|[]]]], H2 as [->|[->|[->|[]]]];
    (done || by vm_compute).
Qed.

Lemma rank_most_common_first_witness :
  range_of Fixture.ranked ["漢"; "字"; "本"]
  ∧ (getMostCommonCharactersList Fixture.ranked ["漢"; "字"; "本"] !! 0%nat
     = Some "漢"
     ∧ getMostCommonCharactersList Fixture.ranked ["漢"; "字"; "本"] !! 2%nat
       = Some "字"
     ∧ at_key Fixture.ranked "字" ≤ at_key Fixture.ranked "漢")
  ∧ ("本" ∈ take 2 (getMostCommonCharactersList Fixture.ranked
                      ["漢"; "字"; "本"])
     ∧ is_Some (Fixture.ranked !! "字")
     ∧ ("字" ∉ take 2 (getMostCommonCharactersList Fixture.ranked
                         ["漢"; "字"; "本"]))
     ∧ at_key Fixture.ranked "字" ≤ at_key Fixture.ranked "本").
Proof.
  pose proof (rank_most_common_first Fixture.ranked ["漢"; "字"; "本"]
                range_of_ranked_forward) as [Horder Htop].
  assert ("本" ∈ take 2 (getMostCommonCharactersList Fixture.ranked
                           ["漢"; "字"; "本"])) as Hin.
  { apply (bool_decide_unpack _). by vm_compute. }
  assert ("字" ∉ take 2 (getMostCommonCharactersList Fixture.ranked
                           ["漢"; "字"; "本"])) as Hout.
  { apply (bool_decide_unpack _). by vm_compute. }
  assert (is_Some (Fixture.ranked !! "字")) as Hkey
    by (exists 1; by vm_compute).
  split; [apply range_of_ranked_forward|]. split.
  - split; [by vm_compute|]. split; [by vm_compute|].
    apply (Horder 0%nat 2%nat "漢" "字"); [lia|by vm_compute|by vm_compute].
  - split; [exact Hin|]. split; [exact Hkey|]. split; [exact Hout|].
    exact (Htop 2%nat "本" "字" Hin Hkey Hout).
Defined.

Lemma rank_of_distinct_counts_witness :
  range_of Fixture.ranked ["漢"; "字"; "本"]
  ∧ range_of Fixture.ranked ["本"; "字"; "漢"]
  ∧ getMostCommonCharactersList Fixture.ranked ["漢"; "字"; "本"]
    = getMostCommonCharactersList Fixture.ranked ["本"; "字"; "漢"].
Proof.
  split; [apply range_of_ranked_forward|].
  split; [apply range_of_ranked_backward|].
  exact (rank_of_distinct_counts Fixture.ranked _ _ ranked_distinct_counts
           range_of_ranked_forward range_of_ranked_backward).
Defined.

(** ** The report *)

Lemma rankingEntry_not_newline i c n : rankingEntry i c n ≠ newline.
Proof.
  intros Heq. apply (f_equal String.length) in Heq.
  unfold rankingEntry in Heq. rewrite !GoStringsFacts.length_app in Heq.
  simpl in Heq. lia.
Qed.

Lemma rankingLoop_cons cols m rankingList i rest :
  rankingLoop cols m rankingList (i :: rest)
  = if (0 <? i) && (cols =? 0) then ([], Panicked)
    else
      let break := if (0 <? i) && (Z.rem i cols =? 0) then [newline] else [] in
      match rankingList !! Z.to_nat i with
      | None => (break, Panicked)
      | Some c =>
          let '(written, e) := rankingLoop cols m rankingList rest in
          (break ++ rankingEntry i c (at_key m c) :: written, e)
      end.
Proof. reflexivity. Qed.

Lemma rankingLoop_in_range cols m (rankingList : list string) (a n : nat) :
  cols ≠ 0 → (a + n ≤ length rankingList)%nat →
  ∃ written,
    rankingLoop cols m rankingList (seqZ (Z.of_nat a) (Z.of_nat n))
    = (written, Exited)
    ∧ filter (λ w, w ≠ newline) written
      = imap (λ i c, rankingEntry (Z.of_nat (a + i)) c (at_key m c))
             (take n (drop a rankingList)).
Proof.
  intros Hcols. revert a. induction n as [|n IH]; intros a Hlen.
  { exists []. by rewrite seqZ_nil by lia. }
  rewrite seqZ_cons by lia.
  replace (Z.succ (Z.of_nat a)) with (Z.of_nat (S a)) by lia.
  replace (Z.pred (Z.of_nat (S n))) with (Z.of_nat n) by lia.
  rewrite rankingLoop_cons.
  destruct (Z.eqb_spec cols 0) as [?|_]; [done|]. rewrite andb_false_r.
  rewrite Nat2Z.id.
  destruct (lookup_lt_is_Some_2 rankingList a ltac:(lia)) as [c Hc].
  rewrite Hc. cbv zeta.
  destruct (IH (S a) ltac:(lia)) as (written & -> & Hfilter).
  eexists. split; [done|].
  rewrite filter_app, filter_cons_True by apply rankingEntry_not_newline.
  rewrite Hfilter, (drop_S _ _ _ Hc). simpl take. rewrite imap_cons.
  assert (filter (λ w, w ≠ newline)
            (if (0 <? Z.of_nat a) && (Z.rem (Z.of_nat a) cols =? 0)
             then [newline] else []) = []) as ->.
  { destruct (_ && _); [|done]. by rewrite filter_cons_False by (by intros ?). }
  simpl. f_equal; [by rewrite Nat.add_0_r|].
  apply imap_ext. intros i x _. simpl. do 2 f_equal. lia.
Qed.

Section report_facts.
Context `{Float}.

Lemma printCharactersRanking_spec m (rankingList : list string) rankingSize :
  ∃ written,
    printCharactersRanking m rankingList rankingSize = (written, Exited)
    ∧ filter (λ w, w ≠ newline) written
      = imap (λ i c, rankingEntry (Z.of_nat i) c (at_key m c))
             (take (Z.to_nat rankingSize) rankingList)
    ∧ last written = Some newline.
Proof.
  unfold printCharactersRanking. cbv zeta.
  set (minRankingSize := if _ <? _ then _ else _).
  set (cols := Z.max 5 _).
  assert (cols ≠ 0) as Hcols by (unfold cols; lia).
  assert (minRankingSize ≤ Z.of_nat (length rankingList)) as Hmin.
  { unfold minRankingSize. destruct (Z.ltb_spec (Z.of_nat (length rankingList))
                                       rankingSize); lia. }
  assert (take (Z.to_nat minRankingSize) rankingList
          = take (Z.to_nat rankingSize) rankingList) as Htake.
  { unfold minRankingSize. destruct (Z.ltb_spec (Z.of_nat (length rankingList))
                                       rankingSize); [|done].
    by rewrite !take_ge by lia. }
  destruct (rankingLoop_in_range cols m rankingList 0
              (Z.to_nat minRankingSize) Hcols ltac:(lia))
    as (written & Hloop & Hfilter).
  assert (seqZ 0 minRankingSize
          = seqZ (Z.of_nat 0) (Z.of_nat (Z.to_nat minRankingSize))) as Hseq.
  { destruct (Z.le_gt_cases 0 minRankingSize).
    - by rewrite Z2Nat.id by done.
    - rewrite !seqZ_nil by lia. done. }
  rewrite Hseq, Hloop. exists (written ++ [newline]). split; [done|].
  split; [|by rewrite last_snoc].
  rewrite filter_app, Hfilter, filter_cons_False by (by intros ?).
  rewrite app_nil_r, <- Htake. by rewrite drop_0.
Qed.

(** X15.  [printCharactersRanking] never indexes the ranking out of
    range and never divides by zero, whatever the ranking size asked
    for.  Apart from line breaks it writes one entry for each of the
    first [rankingSize] elements of the ranking, or for all of them if
    there are fewer, in the order of the ranking, with the rank, the
    character and its count in the map; for a size of zero or less it
    writes no entry.  The last thing written is a line break. *)
Theorem printCharactersRanking_writes m (rankingList : list string) rankingSize :
  ∃ written,
    printCharactersRanking m rankingList rankingSize = (written, Exited)
    ∧ filter (λ w, w ≠ newline) written
      = imap (λ i c, rankingEntry (Z.of_nat i) c (at_key m c))
             (take (Z.to_nat rankingSize) rankingList)
    ∧ last written = Some newline.
Proof. apply printCharactersRanking_spec. Qed.
End report_facts.

Lemma prints_println line : prints (println line) [line +:+ newline].
Proof. reflexivity. Qed.

Lemma prints_nothing : prints ([], Exited) [].
Proof. reflexivity. Qed.

Lemma prints_andThen p q texts texts' :
  prints p texts → prints q texts' → prints (andThen p q) (texts ++ texts').
Proof. unfold prints, andThen. intros -> ->. simpl. by rewrite fmap_app. Qed.

Lemma andThen_prints_then p texts out e :
  prints p texts → andThen p (out, e) = ((Stdout <$> texts) ++ out, e).
Proof. unfold prints, andThen. by intros ->. Qed.

Section main_facts.
Context `{Kana, Network, Html, MapRange, Float, KeyRange}.

Lemma prints_printing m (rankingList : list string) rankingSize :
  ∃ texts, prints (printing m rankingList rankingSize) texts.
Proof.
  unfold printing.
  destruct (printCharactersRanking_spec m rankingList rankingSize)
    as (written & -> & _).
  by exists written.
Qed.

Lemma prints_section (title : string) uniqueCount' m
    (rankingList : list string) rankingSize :
  ∃ texts,
    prints (if 0 <? uniqueCount' then
              andThen (println title) (printing m rankingList rankingSize)
            else ([], Exited)) texts.
Proof.
  destruct (0 <? uniqueCount'); [|exists []; apply prints_nothing].
  destruct (prints_printing m rankingList rankingSize) as [texts Htexts].
  eexists. apply prints_andThen; [apply prints_println|exact Htexts].
Qed.

Lemma scraper_rejects_depth url depth :
  ¬ (0 ≤ depth < maxSearchDepth) →
  newKanjiKanaScraper url [WithSearchDepth depth; WithLogging]
  = ([], Failed (if depth <? 0
                 then "search depth should be positive"
                 else "search depth exceeds default maximum depth")).
Proof.
  intros Hout. unfold newKanjiKanaScraper, WithSearchDepth. simpl.
  destruct (Z.ltb_spec depth 0); [done|].
  destruct (Z.leb_spec maxSearchDepth depth); [done|]. lia.
Qed.

Lemma scraper_accepts_depth url depth :
  0 ≤ depth < maxSearchDepth →
  newKanjiKanaScraper url [WithSearchDepth depth; WithLogging]
  = let st :=
      routine (if validURL url then url else defaultURL) depth
        (Crawl emptyCounter
           ([LogPrintln "logging mode is set"]
            ++ logged url (ScraperOptions (Some depth) true))) in
    (trace st, Returned (finalize (counter st))).
Proof.
  intros Hin.
  assert (apply_options [WithSearchDepth depth; WithLogging]
            (ScraperOptions None false) []
          = (ScraperOptions (Some depth) true,
             [LogPrintln "logging mode is set"], None)) as Happly.
  { simpl. by rewrite WithSearchDepth_accepts by done. }
  by rewrite (newKanjiKanaScraper_applied _ _ _ _ Happly).
Qed.

(** X16.  Given a depth below zero or not below [maxSearchDepth], [main]
    fetches nothing and prints nothing: it logs the error of the
    constructor and then, reading the maps of the counter it did not get,
    ends in a nil pointer dereference. *)
Theorem main_depth_out_of_range url searchDepth rankingSize elapsed :
  ¬ (0 ≤ searchDepth < maxSearchDepth) →
  main url searchDepth rankingSize elapsed
  = ([Logged (if searchDepth <? 0
              then "search depth should be positive"
              else "search depth exceeds default maximum depth")],
     Panicked).
Proof.
  intros Hout. unfold main. by rewrite scraper_rejects_depth by done.
Qed.

(** X17.  Given a depth within the range, [main] runs to its end whatever
    the site and whatever the ranking size, negative sizes included: after
    the events of the crawl it writes lines to standard output, the first
    of which gives the total of the counter the constructor returned, and
    it ends with the log line of the elapsed time. *)
Theorem main_depth_in_range url searchDepth rankingSize elapsed :
  0 ≤ searchDepth < maxSearchDepth →
  ∃ tr res texts,
    newKanjiKanaScraper url [WithSearchDepth searchDepth; WithLogging]
    = (tr, Returned res)
    ∧ main url searchDepth rankingSize elapsed
      = ((Crawled <$> tr)
         ++ (Stdout <$> ("All Japanese characters found: "
                         +:+ pretty (allCharacteresCount res) +:+ newline)
                        :: texts)
         ++ [Logged ("total time: " +:+ elapsed)],
         Exited).
Proof.
  intros Hin. unfold main. rewrite scraper_accepts_depth by done. cbv zeta.
  set (st := routine _ _ _). set (res := finalize (counter st)).
  exists (trace st), res.
  destruct (prints_section
              (pretty (Z.min (kanjiUniqueCount res) rankingSize)
               +:+ " most common Kanji characters:")
              (kanjiUniqueCount res) (kanjis res)
              (getMostCommonCharactersList (kanjis res)
                 (keys_order 0 (kanjis res)))
              (Z.min (kanjiUniqueCount res) rankingSize)) as [t1 H1'].
  destruct (prints_section
              (pretty (Z.min (katakanaUniqueCount res) rankingSize)
               +:+ " most common Katakana characters:")
              (katakanaUniqueCount res) (katakanas res)
              (getMostCommonCharactersList (katakanas res)
                 (keys_order 1 (katakanas res)))
              (Z.min (katakanaUniqueCount res) rankingSize)) as [t2 H2'].
  destruct (prints_section
              (pretty (Z.min (hiraganaUniqueCount res) rankingSize)
               +:+ " most common Hiragana characters:")
              (hiraganaUniqueCount res) (hiraganas res)
              (getMostCommonCharactersList (hiraganas res)
                 (keys_order 2 (hiraganas res)))
              (Z.min (hiraganaUniqueCount res) rankingSize)) as [t3 H3'].
  exists (["Kanji unique count: " +:+ pretty (kanjiUniqueCount res)
           +:+ newline]
          ++ t1
          ++ ["Kana unique count: " +:+ pretty (kanaUniqueCount res)
              +:+ newline;
              "Katakana unique count: " +:+ pretty (katakanaUniqueCount res)
              +:+ newline;
              "Hiragana unique count: " +:+ pretty (hiraganaUniqueCount res)
              +:+ newline]
          ++ t2 ++ t3).
  split; [done|]. clearbody res.
  rewrite (andThen_prints_then _ _ _ _ H3').
  rewrite (andThen_prints_then _ _ _ _ H2').
  rewrite !(andThen_prints_then _ _ _ _ (prints_println _)).
  rewrite (andThen_prints_then _ _ _ _ H1').
  rewrite !(andThen_prints_then _ _ _ _ (prints_println _)).
  unfold andThen. cbn [fst snd]. rewrite !string_app_assoc.
  do 2 f_equal. rewrite !fmap_cons, !fmap_app, !fmap_cons, !fmap_nil.
  simpl. do 2 f_equal. rewrite <- app_assoc. simpl.
  by rewrite <- app_assoc.
Qed.
End main_facts.

Lemma main_depth_out_of_range_witness :
  ¬ (0 ≤ 12 < maxSearchDepth)
  ∧ ReportFixture.report Fixture.rootURL 12 2
    = ([Logged "search depth exceeds default maximum depth"], Panicked).
Proof.
  assert (¬ (0 ≤ 12 < maxSearchDepth)) as Hout by (unfold maxSearchDepth; lia).
  split; [exact Hout|].
  exact (@main_depth_out_of_range Fixture.overlapKana Fixture.sampleNetwork
           Fixture.sampleHtml Fixture.inOrder ReportFixture.floorSqrt
           ReportFixture.keysInOrder Fixture.rootURL 12 2 "1s" Hout).
Defined.

Lemma main_depth_in_range_witness :
  0 ≤ 2 < maxSearchDepth
  ∧ (ReportFixture.report Fixture.rootURL 2 (-3)).2 = Exited.
Proof.
  assert (0 ≤ 2 < maxSearchDepth) as Hin by (unfold maxSearchDepth; lia).
  split; [exact Hin|].
  destruct (@main_depth_in_range Fixture.overlapKana Fixture.sampleNetwork
              Fixture.sampleHtml Fixture.inOrder ReportFixture.floorSqrt
              ReportFixture.keysInOrder Fixture.rootURL 2 (-3) "1s" Hin)
    as (tr & res & texts & _ & Hmain).
  unfold ReportFixture.report. by rewrite Hmain.
Defined.

Section printed_ranking.
Context `{Float}.

(** X18.  For a map [m], [main] prints the ranking of [m] with the size
    [min(len(m), rankingSize)].  What is then written, apart from line
    breaks, is one entry for each of the first [rankingSize] characters of
    the ranking, so [min(len(m), rankingSize)] entries when that is not
    negative and none otherwise, and no character appears in two entries. *)
Theorem printed_ranking_of_class (m : gmap string Z) (ks : list string)
    (rankingSize : Z) :
  range_of m ks →
  let out := getMostCommonCharactersList m ks in
  ∃ written,
    printCharactersRanking m out (Z.min (GoInt.len m) rankingSize)
    = (written, Exited)
    ∧ filter (λ w, w ≠ newline) written
      = imap (λ i c, rankingEntry (Z.of_nat i) c (at_key m c))
             (take (Z.to_nat rankingSize) out)
    ∧ length (filter (λ w, w ≠ newline) written)
      = Z.to_nat (Z.min (GoInt.len m) rankingSize)
    ∧ NoDup (take (Z.to_nat rankingSize) out).
Proof.
  intros Hks out. pose proof (rank_range_of m ks Hks) as Hout. fold out in Hout.
  pose proof (range_of_length m out Hout) as Hlen.
  pose proof (range_of_NoDup m out Hout) as Hnd.
  destruct (printCharactersRanking_spec m out (Z.min (GoInt.len m) rankingSize))
    as (written & Hprint & Hfilter & _).
  assert (take (Z.to_nat (Z.min (GoInt.len m) rankingSize)) out
          = take (Z.to_nat rankingSize) out) as Htake.
  { unfold GoInt.len. destruct (Z.le_gt_cases rankingSize (Z.of_nat (size m))).
    - by rewrite Z.min_r by done.
    - rewrite Z.min_l by lia. by rewrite !take_ge by lia. }
  exists written. split; [done|]. rewrite Hfilter, Htake.
  split; [done|]. split.
  - rewrite length_imap, length_take. unfold GoInt.len. lia.
  - rewrite <- (take_drop (Z.to_nat rankingSize) out) in Hnd.
    by apply NoDup_app in Hnd as [? _].
Qed.
End printed_ranking.

Lemma printed_ranking_of_class_witness :
  range_of Fixture.ranked ["漢"; "字"; "本"]
  ∧ ∃ written,
      @printCharactersRanking ReportFixture.floorSqrt Fixture.ranked
        (getMostCommonCharactersList Fixture.ranked ["漢"; "字"; "本"])
        (Z.min (GoInt.len Fixture.ranked) 2)
      = (written, Exited)
      ∧ length (filter (λ w, w ≠ newline) written)
        = Z.to_nat (Z.min (GoInt.len Fixture.ranked) 2).
Proof.
  split; [apply range_of_ranked_forward|].
  destruct (@printed_ranking_of_class ReportFixture.floorSqrt Fixture.ranked
              ["漢"; "字"; "本"] 2 range_of_ranked_forward)
    as (written & Hprint & _ & Hlen & _).
  exists written. split; [exact Hprint|exact Hlen].
Defined.

Section romaji_facts.
Context `{Romaji}.

Lemma romajiLoop_in_range m (rankingList : list string) (a n : nat) :
  (a + n ≤ length rankingList)%nat →
  romajiLoop m rankingList (seqZ (Z.of_nat a) (Z.of_nat n))
  = (imap (λ i c, romajiEntry (Z.of_nat (a + i)) c (at_key m c))
          (take n (drop a rankingList)),
     Exited).
Proof.
  revert a. induction n as [|n IH]; intros a Hlen.
  { by rewrite seqZ_nil by lia. }
  rewrite seqZ_cons by lia.
  replace (Z.succ (Z.of_nat a)) with (Z.of_nat (S a)) by lia.
  replace (Z.pred (Z.of_nat (S n))) with (Z.of_nat n) by lia.
  cbn [romajiLoop]. rewrite Nat2Z.id.
  destruct (lookup_lt_is_Some_2 rankingList a ltac:(lia)) as [c Hc].
  rewrite Hc, (IH (S a)) by lia.
  rewrite (drop_S _ _ _ Hc). simpl take. rewrite imap_cons.
  f_equal. f_equal; [by rewrite Nat.add_0_r|].
  apply imap_ext. intros i x _. simpl. do 2 f_equal. lia.
Qed.

(** X19.  The variant of [printCharactersRanking] that shows the romaji
    never indexes the ranking out of range.  It writes one line for each
    of the first [rankingSize] elements of the ranking, or for all of them
    if there are fewer, in the order of the ranking, with the romaji
    exactly for the characters [kana.IsKana] holds of, and then an empty
    line; for a size of zero or less it writes the empty line alone. *)
Theorem printCharactersRankingRomaji_writes m (rankingList : list string)
    rankingSize :
  printCharactersRankingRomaji m rankingList rankingSize
  = (imap (λ i c, romajiEntry (Z.of_nat i) c (at_key m c))
          (take (Z.to_nat rankingSize) rankingList)
     ++ [newline],
     Exited).
Proof.
  unfold printCharactersRankingRomaji. cbv zeta.
  set (minRankingSize := if _ <? _ then _ else _).
  assert (minRankingSize ≤ Z.of_nat (length rankingList)) as Hmin.
  { unfold minRankingSize. destruct (Z.ltb_spec (Z.of_nat (length rankingList))
                                       rankingSize); lia. }
  assert (take (Z.to_nat minRankingSize) rankingList
          = take (Z.to_nat rankingSize) rankingList) as Htake.
  { unfold minRankingSize. destruct (Z.ltb_spec (Z.of_nat (length rankingList))
                                       rankingSize); [|done].
    by rewrite !take_ge by lia. }
  assert (seqZ 0 minRankingSize
          = seqZ (Z.of_nat 0) (Z.of_nat (Z.to_nat minRankingSize))) as ->.
  { destruct (Z.le_gt_cases 0 minRankingSize).
    - by rewrite Z2Nat.id by done.
    - rewrite !seqZ_nil by lia. done. }
  rewrite romajiLoop_in_range by lia.
  by rewrite drop_0, Htake.
Qed.
End romaji_facts.

Section scraper_extras.
Context `{Kana, Network, Html, MapRange}.

(** X20.  A counter the constructor returns is the frequency table of
    the text crawled, that is of the characters of the pages fetched and
    read from the root with the depth the options set.  When that text has
    fewer than 2^63 characters, a map has an entry for a character exactly
    when the character is of its class and occurs in the text, the entry
    is the number of its occurrences, and the total is the number of
    characters of the text that match at least one class. *)
Theorem scraper_counts_the_crawled_text rootURL options fc :
  (newKanjiKanaScraper rootURL options).2 = Returned fc →
  ∃ depth,
    searchDepth (apply_options options (ScraperOptions None false) []).1.1
    = Some depth
    ∧ let text :=
        visits (Z.to_nat (depth + 1))
               (if validURL rootURL then rootURL else defaultURL)
        ≫= page_chars in
      Z.of_nat (length text) ≤ GoInt.maxInt →
      (∀ k, kanjis fc !! k
            = if IsKanji k && bool_decide (k ∈ text)
              then Some (occurs k text) else None)
      ∧ (∀ k, katakanas fc !! k
              = if IsKatakana k && bool_decide (k ∈ text)
                then Some (occurs k text) else None)
      ∧ (∀ k, hiraganas fc !! k
              = if IsHiragana k && bool_decide (k ∈ text)
                then Some (occurs k text) else None)
      ∧ allCharacteresCount fc
        = Z.of_nat (length (filter (λ c, classified c = true) text)).
Proof.
  intros (opts & tr & depth & Happly & Hdepth & ->)%newKanjiKanaScraper_returned.
  exists depth. rewrite Happly. split; [done|]. intros text Hlen.
  rewrite finalize_fields. simpl.
  destruct (routine_visits (if validURL rootURL then rootURL else defaultURL)
              depth (Crawl emptyCounter (tr ++ logged rootURL opts)))
    as [_ ->].
  simpl. fold text.
  repeat split; try intros k; by apply (observe_all_from_empty text).
Qed.

(** X21.  A crawl with a larger budget fetches every URL that a crawl
    from the same root with a smaller budget fetches. *)
Theorem deeper_crawl_fetches_more url layer layer' st st' u :
  layer ≤ layer' →
  u ∈ fetches url layer st → u ∈ fetches url layer' st'.
Proof.
  intros Hle Hin. apply (routine_run url layer st) in Hin as (k & Hk & Hreach).
  apply (routine_run url layer' st'). exists k. split; [lia|done].
Qed.
End scraper_extras.

Lemma scraper_counts_the_crawled_text_witness :
  ∃ fc,
    (Fixture.scrape Fixture.rootURL [WithSearchDepth 1; WithLogging]).2
    = Returned fc
    ∧ Z.of_nat (length (@visits Fixture.sampleNetwork Fixture.sampleHtml
                          (Z.to_nat (1 + 1)) Fixture.rootURL
                        ≫= @page_chars Fixture.sampleNetwork Fixture.sampleHtml))
      ≤ GoInt.maxInt
    ∧ allCharacteresCount fc = 9.
Proof.
  pose (fc := finalize (counter
                (@routine Fixture.overlapKana Fixture.sampleNetwork
                   Fixture.sampleHtml Fixture.inOrder Fixture.rootURL 1
                   (Crawl emptyCounter
                      [LogPrintln "logging mode is set";
                       LogPrintln "search depth set to 1"])))).
  assert ((Fixture.scrape Fixture.rootURL [WithSearchDepth 1; WithLogging]).2
          = Returned fc) as Hret by (by vm_compute).
  assert (Z.of_nat (length (@visits Fixture.sampleNetwork Fixture.sampleHtml
                              (Z.to_nat (1 + 1)) Fixture.rootURL
                            ≫= @page_chars Fixture.sampleNetwork
                                 Fixture.sampleHtml))
          ≤ GoInt.maxInt) as Hlen by (by vm_compute).
  exists fc. split; [exact Hret|]. split; [exact Hlen|].
  destruct (@scraper_counts_the_crawled_text Fixture.overlapKana
              Fixture.sampleNetwork Fixture.sampleHtml Fixture.inOrder
              Fixture.rootURL [WithSearchDepth 1; WithLogging] fc Hret)
    as (depth & Hdepth & Htable).
  vm_compute in Hdepth. injection Hdepth as <-.
  destruct (Htable Hlen) as (_ & _ & _ & ->). by vm_compute.
Defined.

Lemma deeper_crawl_fetches_more_witness :
  1 ≤ 2
  ∧ "http://www.example.jp/a.html"
    ∈ @fetches Fixture.overlapKana Fixture.sampleNetwork Fixture.sampleHtml
        Fixture.inOrder Fixture.rootURL 1 (Crawl emptyCounter [])
  ∧ "http://www.example.jp/a.html"
    ∈ @fetches Fixture.overlapKana Fixture.sampleNetwork Fixture.sampleHtml
        Fixture.inOrder Fixture.rootURL 2 (Crawl emptyCounter []).
Proof.
  assert ("http://www.example.jp/a.html"
          ∈ @fetches Fixture.overlapKana Fixture.sampleNetwork
              Fixture.sampleHtml Fixture.inOrder Fixture.rootURL 1
              (Crawl emptyCounter [])) as Hin.
  { apply (bool_decide_unpack _). by vm_compute. }
  split; [lia|]. split; [exact Hin|].
  apply (@deeper_crawl_fetches_more Fixture.overlapKana Fixture.sampleNetwork
           Fixture.sampleHtml Fixture.inOrder Fixture.rootURL 1 2
           (Crawl emptyCounter []) (Crawl emptyCounter [])
           "http://www.example.jp/a.html"); [lia|exact Hin].
Defined.
